(** * Political alignment case study (02_polviews.ipynb): analytic core

    The notebook has no algorithms of its own: every analytic step is a
    call into pandas, empiricaldist or statsmodels.  This file embeds the
    calls as the notebook makes them:

    - [values series] = [series.value_counts().sort_index()]
    - [Pmf.from_seq(seq)] = [pd.Series(seq).value_counts(normalize=True,
      sort=False, dropna=True)] followed by [sort_index()]
    - [gss.groupby('year')['polviews'].mean()]
    - [pd.crosstab(year, column, normalize='index')]
    - [make_lowess series], a wrapper around statsmodels' [lowess].

    A response column is a float column that may hold NaN.  Here it is a
    [list (option Z)], where [None] is NaN.  Fractions and means are exact
    rationals ([Q]).  They stand for the float results.  The Series
    handed to [make_lowess] are float arrays, whose entries ([float64])
    may also be infinite, as statsmodels sees them. *)

From Stdlib Require Import List Bool ZArith QArith Qabs Lia.
From Stdlib Require Import Sorting.Sorted Sorting.Permutation.
Import ListNotations.

Open Scope Z_scope.

(** ** Generic helpers: stable insertion sort and keyed accumulation *)

Section Sort.
Context {A : Type} (le : A -> A -> bool).

Fixpoint insert (x : A) (l : list A) : list A :=
  match l with
  | [] => [x]
  | y :: r => if le x y then x :: y :: r else y :: insert x r
  end.

Fixpoint isort (l : list A) : list A :=
  match l with
  | [] => []
  | x :: r => insert x (isort r)
  end.
End Sort.

Section Assoc.
Context {K V : Type} (keqb : K -> K -> bool).

(** Add an observation with key [k] to an accumulator kept in
    first-appearance order: a new key is appended with [init], and an
    existing key has its value updated with [f]. *)
Fixpoint bump (k : K) (init : V) (f : V -> V) (l : list (K * V))
  : list (K * V) :=
  match l with
  | [] => [(k, init)]
  | (k', v) :: r =>
      if keqb k' k then (k', f v) :: r else (k', v) :: bump k init f r
  end.

Fixpoint assoc (k : K) (l : list (K * V)) : option V :=
  match l with
  | [] => None
  | (k', v) :: r => if keqb k' k then Some v else assoc k r
  end.
End Assoc.

(** A count looked up in a counter, 0 when the key is absent. *)
Definition assoc_nat {K : Type} (keqb : K -> K -> bool) (k : K)
           (l : list (K * nat)) : nat :=
  match assoc keqb k l with Some n => n | None => 0%nat end.

(** ** Values of a response column *)

(** Equality and order on the values of a float column.  [sort_index]
    puts NaN last ([na_position='last']). *)
Definition key_eqb (a b : option Z) : bool :=
  match a, b with
  | Some x, Some y => Z.eqb x y
  | None, None => true
  | _, _ => false
  end.

Definition key_le (a b : option Z) : bool :=
  match a, b with
  | Some x, Some y => Z.leb x y
  | Some _, None => true
  | None, Some _ => false
  | None, None => true
  end.

Definition is_present (o : option Z) : bool :=
  match o with Some _ => true | None => false end.

(** ** [Series.value_counts] *)

(** Counts in first-appearance order, NaN included as a key. *)
Definition count_values (s : list (option Z)) : list (option Z * nat) :=
  fold_left (fun acc o => bump key_eqb o 1%nat S acc) s [].

(** [value_counts(sort, dropna)]: with [dropna] the NaN key is removed.
    With [sort] the counts are ordered by decreasing frequency. *)
Definition value_counts (sort dropna : bool) (s : list (option Z))
  : list (option Z * nat) :=
  let c := count_values s in
  let c := if dropna then filter (fun kc => is_present (fst kc)) c else c in
  if sort then isort (fun a b => Nat.leb (snd b) (snd a)) c else c.

Definition sum_counts (c : list (option Z * nat)) : nat :=
  fold_right (fun kc n => (snd kc + n)%nat) 0%nat c.

(** [normalize=True]: each count divided by the sum of the counts. *)
Definition normalize_counts (c : list (option Z * nat)) : list (option Z * Q) :=
  let total := sum_counts c in
  map (fun kc =>
         (fst kc, (inject_Z (Z.of_nat (snd kc)) / inject_Z (Z.of_nat total))%Q))
      c.

(** [sort_index()]: order entries by their key. *)
Definition sort_index {V : Type} (l : list (option Z * V)) : list (option Z * V) :=
  isort (fun a b => key_le (fst a) (fst b)) l.

(** Notebook: [def values(series): return series.value_counts().sort_index()] *)
Definition values (s : list (option Z)) : list (option Z * nat) :=
  sort_index (value_counts true true s).

(** empiricaldist: [Pmf.from_seq(seq)] with its defaults
    [normalize=True, sort=True, dropna=True]. *)
Definition Pmf_from_seq (s : list (option Z)) : list (option Z * Q) :=
  sort_index (normalize_counts (value_counts false true s)).

Definition pmf_total (p : list (option Z * Q)) : Q :=
  fold_right (fun kq q => (snd kq + q)%Q) 0%Q p.

(** Number of entries of [s] equal to [k], and of non-missing entries. *)
Definition count_of (k : option Z) (s : list (option Z)) : nat :=
  length (filter (fun o => key_eqb o k) s).

Definition count_present (s : list (option Z)) : nat :=
  length (filter is_present s).

(** ** [gss.groupby('year')['polviews'].mean()] *)

(** A row of the survey table, reduced to the two columns the notebook
    aggregates: [(year, polviews)]. *)
Definition row := (Z * option Z)%type.

(** [groupby('year')]: one group per year, holding that year's responses
    in row order.  Groups come out ordered by year ([sort=True]). *)
Definition group_by_year (rows : list row) : list (Z * list (option Z)) :=
  isort (fun a b => Z.leb (fst a) (fst b))
    (fold_left (fun acc r => bump Z.eqb (fst r) [snd r]
                               (fun vs => vs ++ [snd r]) acc)
       rows []).

Definition present_values (vs : list (option Z)) : list Z :=
  flat_map (fun o => match o with Some x => [x] | None => [] end) vs.

(** [SeriesGroupBy.mean()] on one group: NaN is skipped.  A group with no
    present value has mean NaN ([None]). *)
Definition group_mean (vs : list (option Z)) : option Q :=
  match present_values vs with
  | [] => None
  | xs => Some (inject_Z (fold_right Z.add 0%Z xs)
                / inject_Z (Z.of_nat (length xs)))%Q
  end.

(** Notebook: [mean_series = gss_by_year['polviews'].mean()] *)
Definition mean_series (rows : list row) : list (Z * option Q) :=
  map (fun g => (fst g, group_mean (snd g))) (group_by_year rows).

(** ** [pd.crosstab(year, column)] and [normalize='index'] *)

Definition pair_eqb (a b : Z * Z) : bool :=
  Z.eqb (fst a) (fst b) && Z.eqb (snd a) (snd b).

(** Pairs with a NaN response are not counted (grouping drops NaN keys). *)
Definition kept_pairs (rows : list row) : list (Z * Z) :=
  flat_map (fun r => match snd r with Some c => [(fst r, c)] | None => [] end)
    rows.

(** Group sizes of [(year, value)] ([aggfunc=len]). *)
Definition cell_counts (rows : list row) : list ((Z * Z) * nat) :=
  fold_left (fun acc p => bump pair_eqb p 1%nat S acc) (kept_pairs rows) [].

Fixpoint dedup (l : list Z) : list Z :=
  match l with
  | [] => []
  | x :: r => if existsb (Z.eqb x) r then dedup r else x :: dedup r
  end.

(** Row labels (years) and column labels (values) of the table: the
    distinct keys of the groups, ascending. *)
Definition row_keys (rows : list row) : list Z :=
  isort Z.leb (dedup (map (fun pc => fst (fst pc)) (cell_counts rows))).

Definition col_keys (rows : list row) : list Z :=
  isort Z.leb (dedup (map (fun pc => snd (fst pc)) (cell_counts rows))).

(** The unstacked table: every (row, column) cell, with [fill_value=0]
    where the group is absent. *)
Definition crosstab (rows : list row) : list (Z * list (Z * nat)) :=
  let cc := cell_counts rows in
  map (fun y =>
         (y, map (fun c => (c, match assoc pair_eqb (y, c) cc with
                                | Some n => n
                                | None => 0%nat
                                end))
               (col_keys rows)))
    (row_keys rows).

Definition row_sum (cells : list (Z * nat)) : nat :=
  fold_right (fun cn n => (snd cn + n)%nat) 0%nat cells.

(** [normalize='index']: every cell divided by the sum of its row. *)
Definition crosstab_norm (rows : list row) : list (Z * list (Z * Q)) :=
  map (fun yc =>
         let t := row_sum (snd yc) in
         (fst yc, map (fun cn =>
                         (fst cn, (inject_Z (Z.of_nat (snd cn))
                                   / inject_Z (Z.of_nat t))%Q))
                    (snd yc)))
    (crosstab rows).

Definition qrow_sum (cells : list (Z * Q)) : Q :=
  fold_right (fun cq q => (snd cq + q)%Q) 0%Q cells.

(** ** [make_lowess] *)

(** A float64 as numpy holds it: a finite number, an infinity, or NaN. *)
Inductive float64 :=
| Finite (q : Q)
| Inf (negative : bool)
| NaN.

Definition isfinite (f : float64) : bool :=
  match f with Finite _ => true | _ => false end.

(** A column with missing entries as a float array: NaN where missing. *)
Definition of_option (o : option Q) : float64 :=
  match o with Some q => Finite q | None => NaN end.

(** statsmodels' mask for [missing='drop']:
    [mask_valid = np.isfinite(exog) & np.isfinite(endog)].  The pairs
    kept, with their (finite) values. *)
Definition finite_pair_of (xy : float64 * float64) : list (Q * Q) :=
  match xy with
  | (Finite x, Finite y) => [(x, y)]
  | _ => []
  end.

Definition finite_pairs (exog endog : list float64) : list (Q * Q) :=
  flat_map finite_pair_of (combine exog endog).

Section Lowess.
(** The numerical kernel of statsmodels' [lowess]: given the responses
    and the ascending x-values, the fitted value at each x.  Its weights
    and regressions are left abstract.  No claim here depends on them. *)
Variable lowess_fit : list Q -> list Q -> list Q.

(** statsmodels' [lowess(endog, exog)] with its defaults
    ([missing='drop'], [is_sorted=False], [return_sorted=True]): pairs
    whose x or y is not finite (NaN or an infinity) are dropped, the rest
    sorted by x.  The result is the array of [(x, fitted y)] rows.
    numpy's argsort may order ties in x differently.  The x-column does
    not depend on that. *)
Definition lowess (endog exog : list float64) : list (Q * Q) :=
  let pts := finite_pairs exog endog in
  let srt := isort (fun a b => Qle_bool (fst a) (fst b)) pts in
  let xs := map fst srt in
  combine xs (lowess_fit (map snd srt) xs).

(** Notebook:
    [y = series.values; x = series.index.values; smooth = lowess(y, x);
     index, data = np.transpose(smooth); return pd.Series(data, index=index)] *)
Definition make_lowess (series : list (float64 * float64)) : list (Q * Q) :=
  let y := map snd series in
  let x := map fst series in
  let smooth := lowess y x in
  let index := map fst smooth in
  let data := map snd smooth in
  combine index data.
End Lowess.

(** ** Selecting one year *)

(** Notebook: [polviews74 = polviews[gss['year'] == 1974]].  The boolean
    mask keeps the responses of the rows of year [y], in row order. *)
Definition select_year (rows : list row) (y : Z) : list (option Z) :=
  map snd (filter (fun r => Z.eqb (fst r) y) rows).

(** ** Plotting a series with its smooth line *)

(** [mean_series] as the Series handed to [plot_series_lowess]: its
    integer year index becomes the float x-values, a NaN mean a NaN. *)
Definition mean_series_points (rows : list row) : list (float64 * float64) :=
  map (fun p => (Finite (inject_Z (fst p)), of_option (snd p))) (mean_series rows).

(** The error the plotting loop can raise: [KeyError] from [table[col]]
    or from [colors[col]]. *)
Inductive plot_error := KeyError (k : Z).

(** [table[col]] on [xtab_norm = pd.crosstab(year, column,
    normalize='index')]: the column as a Series indexed by year, or a
    [KeyError] when [col] is not a column of the table. *)
Definition xtab_column (rows : list row) (col : Z)
  : plot_error + list (float64 * float64) :=
  if existsb (Z.eqb col) (col_keys rows)
  then inr (map (fun yc => (Finite (inject_Z (fst yc)),
                            of_option (assoc Z.eqb col (snd yc))))
              (crosstab_norm rows))
  else inl (KeyError col).

Section Plot.
Variable lowess_fit : list Q -> list Q -> list Q.
Context {Color : Type}.

(** What one call to [plot_series_lowess] draws: the data points and the
    smooth line, both in [color]. *)
Record drawing := {
  drawn_color : Color;
  drawn_points : list (float64 * float64);
  drawn_smooth : list (Q * Q)
}.

(** Notebook:
    [series.plot(linewidth=0, marker='o', color=color, alpha=0.5);
     smooth = make_lowess(series); smooth.plot(label='_', color=color)] *)
Definition plot_series_lowess (series : list (float64 * float64)) (color : Color)
  : drawing :=
  {| drawn_color := color;
     drawn_points := series;
     drawn_smooth := make_lowess lowess_fit series |}.

(** Notebook: [for col in columns: series = table[col];
    plot_series_lowess(series, colors[col])], with [table] the normalised
    cross-tabulation of [rows].  The result holds the drawings made, in
    order, and the [KeyError] that stopped the loop, if any.  Drawings made
    before the error stay on the axes. *)
Fixpoint plot_columns_lowess (rows : list row) (columns : list Z)
         (colors : list (Z * Color)) : list drawing * option plot_error :=
  match columns with
  | [] => ([], None)
  | col :: rest =>
      match xtab_column rows col with
      | inl e => ([], Some e)
      | inr series =>
          match assoc Z.eqb col colors with
          | None => ([], Some (KeyError col))
          | Some color =>
              let '(ds, err) := plot_columns_lowess rows rest colors in
              (plot_series_lowess series color :: ds, err)
          end
      end
  end.
End Plot.

(** * Properties *)

(** ** Insertion sort *)

Section SortFacts.
Context {A : Type} (le : A -> A -> bool).
Hypothesis le_total : forall a b, le a b = false -> le b a = true.

Lemma insert_perm : forall x l, Permutation (insert le x l) (x :: l).
Proof.
  intros x l; induction l as [|y r IH]; simpl; [auto|].
  destruct (le x y); [auto|].
  rewrite IH. apply perm_swap.
Qed.

Lemma isort_perm : forall l, Permutation (isort le l) l.
Proof.
  induction l as [|x r IH]; simpl; [auto|].
  rewrite insert_perm. auto.
Qed.

Lemma insert_sorted : forall x l,
  Sorted (fun a b => le a b = true) l ->
  Sorted (fun a b => le a b = true) (insert le x l).
Proof.
  intros x l Hs; induction Hs as [|y r Hr IH Hhd]; simpl.
  - repeat constructor.
  - case_eq (le x y); intro Hxy.
    + repeat constructor; auto.
    + constructor; [exact IH|].
      destruct r as [|z r']; simpl.
      * constructor. apply le_total; exact Hxy.
      * inversion Hhd; subst.
        destruct (le x z); constructor; auto.
Qed.

Lemma isort_sorted : forall l, Sorted (fun a b => le a b = true) (isort le l).
Proof.
  induction l; simpl; [constructor|]. apply insert_sorted; assumption.
Qed.
End SortFacts.

Lemma isort_in {A} (le : A -> A -> bool) (l : list A) (x : A) :
  In x (isort le l) <-> In x l.
Proof.
  split; apply Permutation_in; [|symmetry]; apply isort_perm.
Qed.

(** ** Keyed accumulation *)

Section AssocFacts.
Context {K V : Type} (keqb : K -> K -> bool).
Hypothesis keqb_spec : forall a b, reflect (a = b) (keqb a b).

Lemma bump_keys : forall (k : K) (i : V) (f : V -> V) l x,
  In x (map fst (bump keqb k i f l)) <-> x = k \/ In x (map fst l).
Proof.
  intros k i f l x; induction l as [|[k' v] r IH]; simpl.
  - intuition congruence.
  - destruct (keqb_spec k' k) as [->|Hne]; simpl.
    + intuition congruence.
    + rewrite IH. tauto.
Qed.

Lemma bump_nodup : forall (k : K) (i : V) (f : V -> V) l,
  NoDup (map fst l) -> NoDup (map fst (bump keqb k i f l)).
Proof.
  intros k i f l; induction l as [|[k' v] r IH]; simpl; intro Hnd.
  - repeat constructor; simpl; tauto.
  - inversion Hnd as [|? ? Hnin Hnd']; subst.
    destruct (keqb_spec k' k) as [->|Hne]; simpl.
    + constructor; assumption.
    + constructor; [|auto].
      rewrite bump_keys. intros [Heq|Hin]; [congruence|tauto].
Qed.

Lemma assoc_bump : forall (k : K) (i : V) (f : V -> V) l p,
  assoc keqb p (bump keqb k i f l) =
  if keqb k p
  then Some (match assoc keqb p l with Some v => f v | None => i end)
  else assoc keqb p l.
Proof.
  intros k i f l p; induction l as [|[k' v] r IH]; simpl.
  - destruct (keqb k p); reflexivity.
  - destruct (keqb_spec k' k) as [->|Hne]; simpl.
    + destruct (keqb_spec k p); reflexivity.
    + rewrite IH.
      destruct (keqb_spec k' p) as [->|Hne']; [|reflexivity].
      destruct (keqb_spec k p); congruence.
Qed.

Lemma assoc_in : forall (l : list (K * V)) k v,
  NoDup (map fst l) -> In (k, v) l -> assoc keqb k l = Some v.
Proof.
  induction l as [|[k' v'] r IH]; simpl; intros k v Hnd Hin; [contradiction|].
  inversion Hnd as [|? ? Hnin Hnd']; subst.
  destruct Hin as [Heq|Hin].
  - injection Heq as -> ->. destruct (keqb_spec k k); congruence.
  - destruct (keqb_spec k' k) as [->|Hne]; [|auto].
    exfalso; apply Hnin. apply (in_map fst) in Hin; exact Hin.
Qed.

(** Folding [bump] over a list of records: the keys of the result are
    distinct, and they are the keys met in the records. *)
Lemma fold_bump_keys {R : Type} (key : R -> K) (init : R -> V)
      (upd : R -> V -> V) : forall rows acc,
  NoDup (map fst acc) ->
  NoDup (map fst (fold_left (fun acc r => bump keqb (key r) (init r) (upd r) acc)
                    rows acc)) /\
  (forall x, In x (map fst (fold_left (fun acc r => bump keqb (key r) (init r)
                                                     (upd r) acc) rows acc))
             <-> In x (map fst acc) \/ exists r, In r rows /\ key r = x).
Proof.
  induction rows as [|r rows IH]; simpl; intros acc Hnd.
  - split; [assumption|]. intro x. split; [tauto|].
    intros [H|[? [[] _]]]; exact H.
  - destruct (IH (bump keqb (key r) (init r) (upd r) acc)) as [Hnd' Hin'].
    { apply bump_nodup; assumption. }
    split; [assumption|]. intro x. rewrite Hin', bump_keys.
    split.
    + intros [[->|H]|[r' [Hr' <-]]]; eauto.
    + intros [H|[r' [[<-|Hr'] <-]]]; eauto.
Qed.

End AssocFacts.

Section CountFacts.
Context {K : Type} (keqb : K -> K -> bool).
Hypothesis keqb_spec : forall a b, reflect (a = b) (keqb a b).

(** Folding a counter [bump k 1 S] over keys: every key's count grows by
    its number of occurrences. *)
Lemma fold_count_assoc : forall (ks : list K) (acc : list (K * nat)) p,
  assoc_nat keqb p (fold_left (fun acc k => bump keqb k 1%nat S acc) ks acc) =
  (assoc_nat keqb p acc + length (filter (fun k => keqb k p) ks))%nat.
Proof.
  unfold assoc_nat.
  induction ks as [|k ks IH]; simpl; intros acc p; [lia|].
  rewrite IH, (assoc_bump keqb keqb_spec).
  destruct (keqb k p); simpl; [|reflexivity].
  destruct (assoc keqb p acc); lia.
Qed.
End CountFacts.

(** ** Frequency estimator: [values] and [Pmf.from_seq] *)

Lemma key_eqb_spec : forall a b, reflect (a = b) (key_eqb a b).
Proof.
  intros [x|] [y|]; simpl; try (constructor; congruence).
  destruct (Z.eqb_spec x y); constructor; congruence.
Qed.

Lemma key_le_total : forall a b, key_le a b = false -> key_le b a = true.
Proof.
  intros [x|] [y|]; simpl; try discriminate; auto.
  intro H. apply Z.leb_gt in H. apply Z.leb_le. lia.
Qed.

Lemma count_values_keys : forall s,
  NoDup (map fst (count_values s)) /\
  (forall k, In k (map fst (count_values s)) <-> In k s).
Proof.
  intro s.
  destruct (fold_bump_keys key_eqb key_eqb_spec (fun o => o) (fun _ => 1%nat)
              (fun _ => S) s [] (NoDup_nil _)) as [Hnd Hin].
  split; [exact Hnd|]. intro k. unfold count_values. rewrite Hin. simpl.
  split; [intros [[]|[r [Hr <-]]]; exact Hr|eauto].
Qed.

Lemma count_values_count : forall s k v,
  In (k, v) (count_values s) -> v = count_of k s.
Proof.
  intros s k v Hin.
  destruct (count_values_keys s) as [Hnd _].
  pose proof (fold_count_assoc key_eqb key_eqb_spec s [] k) as Hc.
  unfold assoc_nat in Hc. fold (count_values s) in Hc.
  rewrite (assoc_in key_eqb key_eqb_spec _ _ _ Hnd Hin) in Hc.
  unfold count_of. simpl in Hc. exact Hc.
Qed.

Lemma sum_counts_present_bump : forall o l,
  sum_counts (filter (fun kc => is_present (fst kc)) (bump key_eqb o 1%nat S l)) =
  ((if is_present o then 1 else 0) +
   sum_counts (filter (fun kc => is_present (fst kc)) l))%nat.
Proof.
  intro o; induction l as [|[k v] r IH]; simpl.
  - destruct o; reflexivity.
  - destruct (key_eqb_spec k o) as [->|Hne]; simpl.
    + destruct o; simpl; lia.
    + destruct (is_present k); simpl; rewrite IH; lia.
Qed.

Lemma sum_counts_present : forall s acc,
  sum_counts (filter (fun kc => is_present (fst kc))
                (fold_left (fun acc o => bump key_eqb o 1%nat S acc) s acc)) =
  (sum_counts (filter (fun kc => is_present (fst kc)) acc) + count_present s)%nat.
Proof.
  unfold count_present.
  induction s as [|o s IH]; simpl; intro acc; [lia|].
  rewrite IH, sum_counts_present_bump. destruct o; simpl; lia.
Qed.

Lemma qsum_normalized {A : Type} (l : list (A * nat)) (T : Q) :
  fold_right (fun kq q => (snd kq + q)%Q) 0%Q
    (map (fun kc => (fst kc, inject_Z (Z.of_nat (snd kc)) / T)%Q) l) ==
  inject_Z (Z.of_nat (fold_right (fun kc n => (snd kc + n)%nat) 0%nat l)) / T.
Proof.
  induction l as [|[a n] r IH]; simpl.
  - unfold Qdiv. simpl. ring.
  - rewrite IH, Nat2Z.inj_add, inject_Z_plus. unfold Qdiv. ring.
Qed.

Lemma pmf_total_perm : forall p p',
  Permutation p p' -> pmf_total p == pmf_total p'.
Proof.
  induction 1; simpl.
  - reflexivity.
  - rewrite IHPermutation. reflexivity.
  - ring.
  - rewrite IHPermutation1. exact IHPermutation2.
Qed.

Lemma inject_nat_pos : forall n, (0 < n)%nat -> ~ inject_Z (Z.of_nat n) == 0.
Proof.
  intros n Hn. change 0%Q with (inject_Z 0). rewrite inject_Z_injective. lia.
Qed.

(** Exact form of the normalisation: the fractions of [Pmf.from_seq] add
    up to 1 as soon as one entry is not missing. *)
Lemma Pmf_from_seq_total_exact : forall s,
  (0 < count_present s)%nat -> pmf_total (Pmf_from_seq s) == 1.
Proof.
  intros s Hpos. unfold Pmf_from_seq, sort_index.
  rewrite (pmf_total_perm _ _ (isort_perm _ _)).
  unfold normalize_counts, value_counts, pmf_total. simpl.
  rewrite qsum_normalized.
  fold (sum_counts (filter (fun kc => is_present (fst kc)) (count_values s))).
  unfold count_values. rewrite sum_counts_present. simpl.
  field. apply inject_nat_pos. exact Hpos.
Qed.

Lemma filter_present_keys {V : Type} : forall (l : list (option Z * V)) k,
  In k (map fst (filter (fun kc => is_present (fst kc)) l)) <->
  In k (map fst l) /\ k <> None.
Proof.
  intros l k. rewrite !in_map_iff. split.
  - intros [[k' v] [<- Hin]]. apply filter_In in Hin as [Hin Hp].
    split; [exists (k', v); auto|]. simpl in *. destruct k'; discriminate.
  - intros [[[k' v] [Heq Hin]] Hne]. simpl in Heq; subst k'.
    exists (k, v). split; [reflexivity|]. apply filter_In. split; [assumption|].
    destruct k; [reflexivity|congruence].
Qed.

Lemma filter_keys_nodup {K V : Type} (f : K * V -> bool) : forall l,
  NoDup (map fst l) -> NoDup (map fst (filter f l)).
Proof.
  induction l as [|[k v] r IH]; simpl; intro Hnd; [constructor|].
  inversion Hnd as [|? ? Hnin Hnd']; subst.
  destruct (f (k, v)); simpl; [|auto].
  constructor; [|auto].
  intro Hin. apply Hnin. apply in_map_iff in Hin as [[k' v'] [Heq Hin]].
  apply filter_In in Hin as [Hin _]. simpl in Heq; subst k'.
  apply (in_map fst) in Hin. exact Hin.
Qed.

Lemma filter_all_false {A : Type} (f : A -> bool) : forall l,
  (forall x, In x l -> f x = false) -> filter f l = [].
Proof.
  induction l as [|x r IH]; simpl; intro H; [reflexivity|].
  rewrite (H x (or_introl eq_refl)). apply IH. auto.
Qed.

(** C1, counterexample: a non-empty column whose only entry is missing
    gives an empty PMF, whose fractions sum to 0. *)
Lemma Pmf_from_seq_nonempty_sum_fails :
  ~ (forall s : list (option Z), s <> [] ->
       (Qabs (pmf_total (Pmf_from_seq s) - 1) <= 1 # 1000000000)%Q).
Proof.
  intro H.
  assert (Hne : [None] <> @nil (option Z)) by discriminate.
  specialize (H [None] Hne). vm_compute in H. apply H. reflexivity.
Qed.

Lemma count_values_present_all_missing : forall s,
  (forall o, In o s -> o = None) ->
  filter (fun kc => is_present (fst kc)) (count_values s) = [].
Proof.
  intros s Hall. apply filter_all_false. intros [k v] Hin.
  destruct (count_values_keys s) as [_ Hk].
  assert (Hks : In k s) by (apply Hk; apply (in_map fst) in Hin; exact Hin).
  rewrite (Hall k Hks). reflexivity.
Qed.

(** C1 (amended): for every input with at least one non-missing entry,
    the fractions of [Pmf.from_seq] sum to 1 within 1e-9.  An input whose
    entries are all missing (the empty one included) gives the empty PMF,
    whose fractions sum to 0. *)
Lemma Pmf_from_seq_sums_to_one : forall s : list (option Z),
  ((exists v, In (Some v) s) ->
   (Qabs (pmf_total (Pmf_from_seq s) - 1) <= 1 # 1000000000)%Q) /\
  ((forall o, In o s -> o = None) ->
   Pmf_from_seq s = [] /\ pmf_total (Pmf_from_seq s) = 0%Q).
Proof.
  intro s. split.
  - intros [v Hv].
    assert (Hpos : (0 < count_present s)%nat).
    { unfold count_present.
      assert (Hin : In (Some v) (filter is_present s)) by (apply filter_In; auto).
      destruct (filter is_present s); [contradiction|simpl; lia]. }
    assert (Hz : (pmf_total (Pmf_from_seq s) - 1 == 0)%Q).
    { rewrite (Pmf_from_seq_total_exact s Hpos). ring. }
    rewrite Hz. discriminate.
  - intro Hall.
    assert (He : Pmf_from_seq s = []).
    { unfold Pmf_from_seq, value_counts.
      rewrite (count_values_present_all_missing s Hall). reflexivity. }
    rewrite He. split; reflexivity.
Qed.

Lemma Pmf_from_seq_sums_to_one_witness :
  (exists v, In (Some v) [Some 1; Some 2; Some 2; Some 4; None]) /\
  Qle (Qabs (pmf_total (Pmf_from_seq [Some 1; Some 2; Some 2; Some 4; None]) - 1))
      (1 # 1000000000) /\
  (forall o, In o [@None Z; None] -> o = None) /\
  Pmf_from_seq [None; None] = [] /\ pmf_total (Pmf_from_seq [None; None]) = 0%Q.
Proof.
  assert (H1 : exists v, In (Some v) [Some 1; Some 2; Some 2; Some 4; None]).
  { exists 1. simpl. auto. }
  assert (H2 : forall o, In o [@None Z; None] -> o = None).
  { intros o [<-|[<-|[]]]; reflexivity. }
  split; [exact H1|split; [exact (proj1 (Pmf_from_seq_sums_to_one _) H1)|]].
  split; [exact H2|]. exact (proj2 (Pmf_from_seq_sums_to_one _) H2).
Defined.

(** C3, counterexample: on the empty input [Pmf.from_seq] returns a
    mapping, the empty one; nothing in the code raises an error. *)
Lemma Pmf_from_seq_empty_returns_mapping : Pmf_from_seq [] = [].
Proof. reflexivity. Qed.

(** C3 (amended): for the empty input, and for any input whose entries
    are all missing, [Pmf.from_seq] and [values] return the empty mapping. *)
Lemma frequency_of_no_data_is_empty : forall s : list (option Z),
  (forall o, In o s -> o = None) -> Pmf_from_seq s = [] /\ values s = [].
Proof.
  intros s Hall.
  unfold Pmf_from_seq, values, value_counts.
  rewrite (count_values_present_all_missing s Hall). split; reflexivity.
Qed.

Lemma frequency_of_no_data_is_empty_witness :
  (forall o, In o [@None Z; None] -> o = None) /\
  Pmf_from_seq [None; None] = [] /\ values [None; None] = [].
Proof.
  assert (H : forall o, In o [None; None] -> o = @None Z).
  { intros o [<-|[<-|[]]]; reflexivity. }
  split; [exact H|]. apply frequency_of_no_data_is_empty. exact H.
Defined.

Lemma values_perm : forall s,
  Permutation (values s) (filter (fun kc => is_present (fst kc)) (count_values s)).
Proof.
  intro s. unfold values, sort_index, value_counts.
  rewrite isort_perm, isort_perm. reflexivity.
Qed.

Lemma Pmf_from_seq_perm : forall s,
  Permutation (Pmf_from_seq s)
    (normalize_counts (filter (fun kc => is_present (fst kc)) (count_values s))).
Proof.
  intro s. unfold Pmf_from_seq, sort_index, value_counts.
  rewrite isort_perm. reflexivity.
Qed.

(** C8, counterexample: a missing entry is present in the sample but is
    not a key of [values]. *)
Lemma values_keys_not_all_sample_values :
  ~ (forall (s : list (option Z)) k, In k s -> In k (map fst (values s))).
Proof.
  intro H. specialize (H [None] None (or_introl eq_refl)).
  vm_compute in H. exact H.
Qed.

(** C8 (amended): the keys of [values s] are distinct, they are exactly
    the non-missing values of [s], and they are in ascending order. *)
Lemma values_keys_distinct_sorted : forall s : list (option Z),
  NoDup (map fst (values s)) /\
  (forall k, In k (map fst (values s)) <-> In k s /\ k <> None) /\
  Sorted (fun a b => key_le (fst a) (fst b) = true) (values s).
Proof.
  intro s. destruct (count_values_keys s) as [Hnd Hk].
  pose proof (Permutation_map fst (values_perm s)) as Hp.
  split; [|split].
  - eapply Permutation_NoDup; [symmetry; exact Hp|].
    apply filter_keys_nodup. exact Hnd.
  - intro k. split.
    + intro Hin. eapply Permutation_in in Hin; [|exact Hp].
      apply filter_present_keys in Hin as [Hin Hne]. rewrite Hk in Hin. auto.
    + intros [Hin Hne]. eapply Permutation_in; [symmetry; exact Hp|].
      apply filter_present_keys. rewrite Hk. auto.
  - unfold values, sort_index. apply isort_sorted.
    intros a b. apply key_le_total.
Qed.

(** C10: missing entries are dropped.  No key of [values s] or of
    [Pmf.from_seq s] is NaN, and each fraction of [Pmf.from_seq s] is
    the key's count over the number of non-missing entries. *)
Lemma frequency_drops_missing : forall s : list (option Z),
  (forall kc, In kc (values s) -> fst kc <> None) /\
  (forall kq, In kq (Pmf_from_seq s) -> fst kq <> None) /\
  (forall k q, In (k, q) (Pmf_from_seq s) ->
     q == inject_Z (Z.of_nat (count_of k s)) / inject_Z (Z.of_nat (count_present s))).
Proof.
  intro s. split; [|split].
  - intros [k c] Hin. eapply Permutation_in in Hin; [|exact (values_perm s)].
    apply filter_In in Hin as [_ Hp]. destruct k; simpl in *; discriminate.
  - intros [k q] Hin. eapply Permutation_in in Hin; [|exact (Pmf_from_seq_perm s)].
    unfold normalize_counts in Hin. apply in_map_iff in Hin as [[k' v] [Heq Hin]].
    injection Heq as <- _. apply filter_In in Hin as [_ Hp].
    destruct k'; simpl in *; discriminate.
  - intros k q Hin. eapply Permutation_in in Hin; [|exact (Pmf_from_seq_perm s)].
    unfold normalize_counts in Hin. apply in_map_iff in Hin as [[k' v] [Heq Hin']].
    injection Heq as <- <-. simpl.
    apply filter_In in Hin' as [Hin' _].
    rewrite <- (count_values_count s k' v Hin').
    unfold count_values. rewrite sum_counts_present. reflexivity.
Qed.

(** ** Temporal aggregator: [groupby('year')[...].mean()] *)

Lemma group_by_year_keys : forall rows : list row,
  NoDup (map fst (group_by_year rows)) /\
  (forall y, In y (map fst (group_by_year rows)) <-> exists v, In (y, v) rows).
Proof.
  intro rows.
  destruct (fold_bump_keys Z.eqb Z.eqb_spec (@fst Z (option Z))
              (fun r => [snd r]) (fun r vs => vs ++ [snd r]) rows []
              (NoDup_nil _)) as [Hnd Hin].
  unfold group_by_year.
  pose proof (Permutation_map fst
                (isort_perm (fun a b : Z * list (option Z) => Z.leb (fst a) (fst b))
                   (fold_left (fun acc r => bump Z.eqb (fst r) [snd r]
                                              (fun vs => vs ++ [snd r]) acc)
                      rows []))) as Hp.
  split.
  - eapply Permutation_NoDup; [symmetry; exact Hp|exact Hnd].
  - intro y. split.
    + intro H. eapply Permutation_in in H; [|exact Hp].
      apply Hin in H as [[]|[[y' v] [Hr Hy]]]. simpl in Hy; subst. eauto.
    + intros [v Hv]. eapply Permutation_in; [symmetry; exact Hp|].
      apply Hin. right. exists (y, v). auto.
Qed.

(** C5: the mean series has exactly one point per distinct year of the
    input: its years are distinct, and they are the years of the rows. *)
Lemma mean_series_one_point_per_year : forall rows : list row,
  NoDup (map fst (mean_series rows)) /\
  (forall y, In y (map fst (mean_series rows)) <-> exists v, In (y, v) rows).
Proof.
  intro rows. unfold mean_series. rewrite map_map. simpl.
  exact (group_by_year_keys rows).
Qed.

(** ** Cross-tabulation *)

Lemma pair_eqb_spec : forall a b, reflect (a = b) (pair_eqb a b).
Proof.
  intros [a1 a2] [b1 b2]. unfold pair_eqb. simpl.
  destruct (Z.eqb_spec a1 b1), (Z.eqb_spec a2 b2); constructor; congruence.
Qed.

Lemma kept_pairs_in : forall rows y c,
  In (y, c) (kept_pairs rows) <-> In (y, Some c) rows.
Proof.
  intros rows y c. unfold kept_pairs. rewrite in_flat_map. split.
  - intros [[y' [c'|]] [Hr Hin]]; simpl in Hin; [|contradiction].
    destruct Hin as [Heq|[]]. injection Heq as -> ->. exact Hr.
  - intro H. exists (y, Some c). simpl. auto.
Qed.

Lemma cell_counts_keys : forall rows p,
  In p (map fst (cell_counts rows)) <-> In p (kept_pairs rows).
Proof.
  intros rows p.
  destruct (fold_bump_keys pair_eqb pair_eqb_spec (fun q : Z * Z => q)
              (fun _ => 1%nat) (fun _ => S) (kept_pairs rows) [] (NoDup_nil _))
    as [_ Hin].
  unfold cell_counts. rewrite Hin. simpl.
  split; [intros [[]|[q [Hq <-]]]; exact Hq|eauto].
Qed.

Lemma cell_counts_count : forall rows p,
  assoc_nat pair_eqb p (cell_counts rows) =
  length (filter (fun q => pair_eqb q p) (kept_pairs rows)).
Proof.
  intros rows p. unfold cell_counts.
  rewrite (fold_count_assoc pair_eqb pair_eqb_spec). reflexivity.
Qed.

Lemma dedup_in : forall l x, In x (dedup l) <-> In x l.
Proof.
  induction l as [|a r IH]; simpl; intro x; [tauto|].
  case_eq (existsb (Z.eqb a) r); intro He; simpl; rewrite IH; [|tauto].
  apply existsb_exists in He as [b [Hb Hab]]. apply Z.eqb_eq in Hab. subst b.
  intuition congruence.
Qed.

Lemma dedup_nodup : forall l, NoDup (dedup l).
Proof.
  induction l as [|a r IH]; simpl; [constructor|].
  case_eq (existsb (Z.eqb a) r); intro He; [exact IH|].
  constructor; [|exact IH].
  rewrite dedup_in. intro Hin.
  assert (Ht : existsb (Z.eqb a) r = true)
    by (apply existsb_exists; exists a; split; [exact Hin|apply Z.eqb_refl]).
  congruence.
Qed.

Lemma row_keys_in : forall rows y,
  In y (row_keys rows) <-> exists c, In (y, Some c) rows.
Proof.
  intros rows y. unfold row_keys. rewrite isort_in, dedup_in, in_map_iff.
  split.
  - intros [[[y' c] n] [Hy Hin]]. simpl in Hy; subst y'.
    apply (in_map fst) in Hin. apply cell_counts_keys, kept_pairs_in in Hin.
    eauto.
  - intros [c Hc]. apply kept_pairs_in, cell_counts_keys, in_map_iff in Hc.
    destruct Hc as [[p n] [Hp Hin]]. simpl in Hp; subst p.
    exists ((y, c), n). auto.
Qed.

Lemma col_keys_in : forall rows c,
  In c (col_keys rows) <-> exists y, In (y, Some c) rows.
Proof.
  intros rows c. unfold col_keys. rewrite isort_in, dedup_in, in_map_iff.
  split.
  - intros [[[y c'] n] [Hc Hin]]. simpl in Hc; subst c'.
    apply (in_map fst) in Hin. apply cell_counts_keys, kept_pairs_in in Hin.
    eauto.
  - intros [y Hy]. apply kept_pairs_in, cell_counts_keys, in_map_iff in Hy.
    destruct Hy as [[p n] [Hp Hin]]. simpl in Hp; subst p.
    exists ((y, c), n). auto.
Qed.

Lemma col_keys_nodup : forall rows, NoDup (col_keys rows).
Proof.
  intro rows. unfold col_keys.
  eapply Permutation_NoDup; [symmetry; apply isort_perm|apply dedup_nodup].
Qed.

Lemma row_sum_map : forall (f : Z -> nat) cols,
  row_sum (map (fun c => (c, f c)) cols) = list_sum (map f cols).
Proof. induction cols; simpl; congruence. Qed.

Lemma list_sum_map_add : forall (f g : Z -> nat) cols,
  list_sum (map (fun c => (f c + g c)%nat) cols) =
  (list_sum (map f cols) + list_sum (map g cols))%nat.
Proof. induction cols; simpl; lia. Qed.

Lemma list_sum_zero : forall cols : list Z,
  list_sum (map (fun _ => 0%nat) cols) = 0%nat.
Proof. induction cols; simpl; auto. Qed.

Lemma list_sum_indicator : forall c0 cols,
  NoDup cols ->
  list_sum (map (fun c => if Z.eqb c0 c then 1%nat else 0%nat) cols) =
  if existsb (Z.eqb c0) cols then 1%nat else 0%nat.
Proof.
  intros c0 cols Hnd. induction Hnd as [|c r Hnin Hnd IH]; simpl; [reflexivity|].
  rewrite IH. destruct (Z.eqb_spec c0 c) as [->|Hne]; simpl.
  - case_eq (existsb (Z.eqb c) r); intro He; [|reflexivity].
    apply existsb_exists in He as [b [Hb Hcb]]. apply Z.eqb_eq in Hcb.
    subst b. contradiction.
  - reflexivity.
Qed.

(** Summing a row: over distinct columns that cover the values met in
    year [y], the counts of [(y, c)] add up to the number of pairs of
    year [y]. *)
Lemma row_total : forall y cols (l : list (Z * Z)),
  NoDup cols ->
  (forall c, In (y, c) l -> In c cols) ->
  list_sum (map (fun c => length (filter (fun q => pair_eqb q (y, c)) l)) cols) =
  length (filter (fun q => Z.eqb (fst q) y) l).
Proof.
  intros y cols l Hnd. induction l as [|[y' c'] r IH]; simpl; intro Hcov.
  - apply list_sum_zero.
  - transitivity
      (list_sum (map (fun c => ((if pair_eqb (y', c') (y, c) then 1 else 0) +
                                length (filter (fun q => pair_eqb q (y, c)) r))%nat)
                   cols)).
    { f_equal. apply map_ext. intro c. destruct (pair_eqb (y', c') (y, c)); reflexivity. }
    rewrite list_sum_map_add, IH by auto.
    unfold pair_eqb. simpl.
    destruct (Z.eqb_spec y' y) as [->|Hne]; simpl.
    + rewrite list_sum_indicator by exact Hnd.
      assert (Hin : In c' cols) by auto.
      assert (He : existsb (Z.eqb c') cols = true)
        by (apply existsb_exists; exists c'; split; [exact Hin|apply Z.eqb_refl]).
      rewrite He. reflexivity.
    + rewrite list_sum_zero. reflexivity.
Qed.

Lemma crosstab_row : forall rows y cells,
  In (y, cells) (crosstab rows) ->
  In y (row_keys rows) /\
  cells = map (fun c => (c, assoc_nat pair_eqb (y, c) (cell_counts rows)))
            (col_keys rows).
Proof.
  intros rows y cells Hin. unfold crosstab in Hin.
  apply in_map_iff in Hin as [y' [Heq Hin]]. injection Heq as <- <-.
  split; [exact Hin|reflexivity].
Qed.

Lemma crosstab_row_total : forall rows y cells,
  In (y, cells) (crosstab rows) ->
  row_sum cells = length (filter (fun q => Z.eqb (fst q) y) (kept_pairs rows)) /\
  (0 < row_sum cells)%nat.
Proof.
  intros rows y cells Hin. apply crosstab_row in Hin as [Hy ->].
  rewrite row_sum_map.
  assert (Htot : list_sum (map (fun c => assoc_nat pair_eqb (y, c) (cell_counts rows))
                              (col_keys rows)) =
                 length (filter (fun q => Z.eqb (fst q) y) (kept_pairs rows))).
  { rewrite <- row_total with (cols := col_keys rows).
    - f_equal. apply map_ext. intro c. apply cell_counts_count.
    - apply col_keys_nodup.
    - intros c Hc. apply col_keys_in. apply kept_pairs_in in Hc. eauto. }
  rewrite Htot. split; [reflexivity|].
  apply row_keys_in in Hy as [c Hc]. apply kept_pairs_in in Hc.
  assert (Hf : In (y, c) (filter (fun q => Z.eqb (fst q) y) (kept_pairs rows)))
    by (apply filter_In; split; [exact Hc|apply Z.eqb_refl]).
  destruct (filter _ _); [contradiction|simpl; lia].
Qed.

Lemma crosstab_norm_row : forall rows y qcells,
  In (y, qcells) (crosstab_norm rows) ->
  exists cells, In (y, cells) (crosstab rows) /\
    qcells = map (fun cn => (fst cn, (inject_Z (Z.of_nat (snd cn))
                                      / inject_Z (Z.of_nat (row_sum cells)))%Q))
               cells.
Proof.
  intros rows y qcells Hin. unfold crosstab_norm in Hin.
  apply in_map_iff in Hin as [[y' cells] [Heq Hin]]. injection Heq as <- <-.
  exists cells. auto.
Qed.

(** C2: every row of [pd.crosstab(year, column, normalize='index')] sums
    to 1 within 1e-9. *)
Lemma crosstab_norm_rows_sum_to_one : forall (rows : list row) y qcells,
  In (y, qcells) (crosstab_norm rows) ->
  (Qabs (qrow_sum qcells - 1) <= 1 # 1000000000)%Q.
Proof.
  intros rows y qcells Hin.
  apply crosstab_norm_row in Hin as [cells [Hin ->]].
  destruct (crosstab_row_total rows y cells Hin) as [_ Hpos].
  assert (Hz : (qrow_sum (map (fun cn => (fst cn, inject_Z (Z.of_nat (snd cn))
                                          / inject_Z (Z.of_nat (row_sum cells))))
                             cells) - 1 == 0)%Q).
  { unfold qrow_sum. rewrite qsum_normalized. fold (row_sum cells).
    field. apply inject_nat_pos. exact Hpos. }
  rewrite Hz. discriminate.
Qed.

Lemma crosstab_norm_rows_sum_to_one_witness :
  In (1974, [(1, (1 # 2)%Q); (2, (0 # 2)%Q); (4, (1 # 2)%Q)])
     (crosstab_norm [(1974, Some 4); (1974, Some 1); (1990, Some 2); (2000, None)]) /\
  Qle (Qabs (qrow_sum [(1, (1 # 2)%Q); (2, (0 # 2)%Q); (4, (1 # 2)%Q)] - 1)) (1 # 1000000000).
Proof.
  assert (Hin : In (1974, [(1, (1 # 2)%Q); (2, (0 # 2)%Q); (4, (1 # 2)%Q)])
     (crosstab_norm [(1974, Some 4); (1974, Some 1); (1990, Some 2); (2000, None)]))
    by (vm_compute; left; reflexivity).
  split; [exact Hin|].
  exact (crosstab_norm_rows_sum_to_one _ _ _ Hin).
Defined.

Lemma assoc_map_in : forall (f : Z -> Q) cols c,
  In c cols -> assoc Z.eqb c (map (fun c' => (c', f c')) cols) = Some (f c).
Proof.
  intros f cols c. induction cols as [|c' r IH]; simpl; [contradiction|].
  intros [->|Hin].
  - rewrite Z.eqb_refl. reflexivity.
  - destruct (Z.eqb_spec c' c) as [->|Hne]; auto.
Qed.

(** C7: in the normalised cross-tabulation, a category that occurs in
    some year but not in year [y] has a cell in row [y], and its value
    is 0. *)
Lemma crosstab_absent_category_zero : forall (rows : list row) y qcells c,
  In (y, qcells) (crosstab_norm rows) ->
  (exists y', In (y', Some c) rows) ->
  ~ In (y, Some c) rows ->
  exists q, assoc Z.eqb c qcells = Some q /\ (q == 0)%Q.
Proof.
  intros rows y qcells c Hin Hocc Habs.
  apply crosstab_norm_row in Hin as [cells [Hin ->]].
  pose proof (crosstab_row rows y cells Hin) as [_ Hcells].
  set (T := row_sum cells). clearbody T.
  rewrite Hcells, map_map. simpl.
  rewrite assoc_map_in by (apply col_keys_in; exact Hocc).
  eexists. split; [reflexivity|].
  rewrite cell_counts_count.
  rewrite filter_all_false.
  - simpl. unfold Qdiv. ring.
  - intros q Hq. destruct (pair_eqb_spec q (y, c)) as [->|]; [|reflexivity].
    exfalso. apply Habs. apply kept_pairs_in. exact Hq.
Qed.

Lemma crosstab_absent_category_zero_witness :
  In (1974, [(2, (0 # 1)%Q); (4, (1 # 1)%Q)])
     (crosstab_norm [(1974, Some 4); (1990, Some 2)]) /\
  (exists y', In (y', Some 2) [(1974, Some 4); (1990, Some 2)]) /\
  ~ In (1974, Some 2) [(1974, Some 4); (1990, Some 2)] /\
  exists q, assoc Z.eqb 2 [(2, (0 # 1)%Q); (4, (1 # 1)%Q)] = Some q /\ (q == 0)%Q.
Proof.
  assert (H1 : In (1974, [(2, (0 # 1)%Q); (4, (1 # 1)%Q)])
                  (crosstab_norm [(1974, Some 4); (1990, Some 2)]))
    by (vm_compute; left; reflexivity).
  assert (H2 : exists y', In (y', Some 2) [(1974, Some 4); (1990, Some 2)])
    by (exists 1990; simpl; auto).
  assert (H3 : ~ In (1974, Some 2) [(1974, Some 4); (1990, Some 2)])
    by (simpl; intros [H|[H|[]]]; discriminate).
  split; [exact H1|split; [exact H2|split; [exact H3|]]].
  exact (crosstab_absent_category_zero _ _ _ _ H1 H2 H3).
Defined.

(** ** Trend smoother: [make_lowess] *)

Lemma combine_map_fst_snd {A B : Type} : forall l : list (A * B),
  combine (map fst l) (map snd l) = l.
Proof. induction l as [|[a b] r IH]; simpl; congruence. Qed.

Lemma Qle_bool_total : forall a b : Q, Qle_bool a b = false -> Qle_bool b a = true.
Proof.
  intros a b H. apply Qle_bool_iff.
  assert (Hn : ~ (a <= b)%Q) by (rewrite <- Qle_bool_iff; congruence).
  apply Qnot_le_lt in Hn. apply Qlt_le_weak. exact Hn.
Qed.

Lemma StronglySorted_map_fst {A B : Type} (R : A -> A -> Prop)
      (R' : A * B -> A * B -> Prop) :
  (forall a b, R' a b -> R (fst a) (fst b)) ->
  forall l, StronglySorted R' l -> StronglySorted R (map fst l).
Proof.
  intro HR. induction 1 as [|p l Hs IH Hall]; simpl; constructor; [exact IH|].
  apply Forall_map. eapply Forall_impl; [|exact Hall]. intros a. apply HR.
Qed.

Lemma StronglySorted_fst_combine {A B : Type} (R : A -> A -> Prop) :
  forall (xs : list A) (ys : list B),
  StronglySorted R xs -> StronglySorted R (map fst (combine xs ys)).
Proof.
  induction xs as [|x xs IH]; intros ys Hs; [constructor|].
  destruct ys as [|y ys]; simpl; [constructor|].
  inversion Hs as [|? ? Hs' Hall]; subst.
  constructor; [apply IH; exact Hs'|].
  apply Forall_forall. intros x' Hx'.
  apply in_map_iff in Hx' as [[a b] [<- Hin]].
  apply in_combine_l in Hin. rewrite Forall_forall in Hall. apply Hall. exact Hin.
Qed.

Lemma lowess_x_sorted : forall fit (endog exog : list float64),
  StronglySorted Qle (map fst (lowess fit endog exog)).
Proof.
  intros fit endog exog. unfold lowess.
  apply StronglySorted_fst_combine.
  apply (StronglySorted_map_fst Qle (fun a b => Qle_bool (fst a) (fst b) = true)).
  { intros a b H. apply Qle_bool_iff. exact H. }
  apply Sorted_StronglySorted.
  - intros a b c Hab Hbc. apply Qle_bool_iff.
    apply Qle_bool_iff in Hab. apply Qle_bool_iff in Hbc.
    eapply Qle_trans; eassumption.
  - apply isort_sorted. intros a b. apply Qle_bool_total.
Qed.

(** C6: the series returned by [make_lowess] is sorted ascending by its
    index (x) values, whatever the kernel's fitted values. *)
Lemma make_lowess_sorted_by_x :
  forall (fit : list Q -> list Q -> list Q) (series : list (float64 * float64)),
  Sorted Qle (map fst (make_lowess fit series)).
Proof.
  intros fit series. unfold make_lowess. rewrite combine_map_fst_snd.
  apply StronglySorted_Sorted. apply lowess_x_sorted.
Qed.

(** C4, counterexample: on the single point (2000, 5) [make_lowess] does
    not fail.  Here the kernel returns the responses unchanged, and the
    result is the one-point series (2000, 5).  The amended statement below
    shows the same for every kernel. *)
Lemma make_lowess_single_point :
  make_lowess (fun ys _ => ys) [(Finite (inject_Z 2000), Finite (inject_Z 5))] =
  [(inject_Z 2000, inject_Z 5)].
Proof. reflexivity. Qed.

Lemma finite_pairs_series : forall series : list (float64 * float64),
  finite_pairs (map fst series) (map snd series) = flat_map finite_pair_of series.
Proof. intro series. unfold finite_pairs. rewrite combine_map_fst_snd. reflexivity. Qed.

Lemma finite_pairs_in : forall (series : list (float64 * float64)) x y,
  In (x, y) (flat_map finite_pair_of series) <-> In (Finite x, Finite y) series.
Proof.
  intros series x y. rewrite in_flat_map. split.
  - intros [[[a| |] [b| |]] [Hin Hxy]]; simpl in Hxy; try contradiction.
    destruct Hxy as [Hxy|[]]. injection Hxy as -> ->. exact Hin.
  - intro Hin. exists (Finite x, Finite y). split; [exact Hin|left; reflexivity].
Qed.

Lemma finite_pairs_length : forall series : list (float64 * float64),
  length (flat_map finite_pair_of series) =
  length (filter (fun xy => isfinite (fst xy) && isfinite (snd xy)) series).
Proof.
  induction series as [|[[a| |] [b| |]] r IH]; simpl; congruence.
Qed.

Lemma map_fst_combine_eq {A B : Type} : forall (xs : list A) (ys : list B),
  length ys = length xs -> map fst (combine xs ys) = xs.
Proof.
  induction xs as [|a r IH]; intros [|b r'] H; simpl in *; try discriminate;
    [reflexivity|]. f_equal. apply IH. lia.
Qed.

Lemma make_lowess_xs :
  forall (fit : list Q -> list Q -> list Q) (series : list (float64 * float64)),
  (forall ys xs, length (fit ys xs) = length xs) ->
  map fst (make_lowess fit series) =
  map fst (isort (fun a b => Qle_bool (fst a) (fst b))
             (flat_map finite_pair_of series)).
Proof.
  intros fit series Hfit. unfold make_lowess. rewrite combine_map_fst_snd.
  unfold lowess. rewrite finite_pairs_series.
  apply map_fst_combine_eq. apply Hfit.
Qed.

(** C4 (amended): [make_lowess] makes no check on the number of distinct
    x-values and raises no error of its own.  On every input with fewer
    than two distinct finite x-values (all finite points at [x0]), a
    single point included, it returns a series whose points all lie at
    [x0], one per input point whose x and y are finite, as long as the
    kernel returns one fitted value per point. *)
Lemma make_lowess_few_x_values :
  forall (fit : list Q -> list Q -> list Q) (series : list (float64 * float64)) x0,
  (forall ys xs, length (fit ys xs) = length xs) ->
  (forall x y, In (Finite x, Finite y) series -> (x == x0)%Q) ->
  Forall (fun p => (fst p == x0)%Q) (make_lowess fit series) /\
  length (make_lowess fit series) =
  length (filter (fun xy => isfinite (fst xy) && isfinite (snd xy)) series).
Proof.
  intros fit series x0 Hfit Hx. split.
  - apply Forall_forall. intros p Hp.
    apply (in_map fst) in Hp. rewrite make_lowess_xs in Hp by exact Hfit.
    apply in_map_iff in Hp as [[x y] [Hxp Hin]]. simpl in Hxp. rewrite <- Hxp.
    rewrite isort_in, finite_pairs_in in Hin. exact (Hx x y Hin).
  - rewrite <- (length_map fst), make_lowess_xs by exact Hfit.
    rewrite length_map, (Permutation_length (isort_perm _ _)).
    apply finite_pairs_length.
Qed.

Lemma make_lowess_few_x_values_witness :
  (forall ys xs : list Q, length ((fun (_ xs' : list Q) => map (fun _ => 0%Q) xs') ys xs)
                          = length xs) /\
  (forall x y, In (Finite x, Finite y)
                 [(Finite (inject_Z 2000), Finite (inject_Z 5));
                  (Finite (inject_Z 2000), NaN); (Inf false, Finite (inject_Z 3))] ->
               (x == inject_Z 2000)%Q) /\
  Forall (fun p => (fst p == inject_Z 2000)%Q)
    (make_lowess (fun ys xs => map (fun _ => 0%Q) xs)
       [(Finite (inject_Z 2000), Finite (inject_Z 5));
        (Finite (inject_Z 2000), NaN); (Inf false, Finite (inject_Z 3))]) /\
  length (make_lowess (fun ys xs => map (fun _ => 0%Q) xs)
            [(Finite (inject_Z 2000), Finite (inject_Z 5));
             (Finite (inject_Z 2000), NaN); (Inf false, Finite (inject_Z 3))]) =
  length (filter (fun xy => isfinite (fst xy) && isfinite (snd xy))
            [(Finite (inject_Z 2000), Finite (inject_Z 5));
             (Finite (inject_Z 2000), NaN); (Inf false, Finite (inject_Z 3))]).
Proof.
  assert (Hf : forall ys xs : list Q,
             length ((fun (_ xs' : list Q) => map (fun _ => 0%Q) xs') ys xs)
             = length xs) by (intros; apply length_map).
  assert (Hx : forall x y, In (Finite x, Finite y)
                 [(Finite (inject_Z 2000), Finite (inject_Z 5));
                  (Finite (inject_Z 2000), NaN); (Inf false, Finite (inject_Z 3))] ->
               (x == inject_Z 2000)%Q).
  { intros x y [H|[H|[H|[]]]]; try discriminate.
    injection H as <- _. reflexivity. }
  split; [exact Hf|split; [exact Hx|]].
  exact (make_lowess_few_x_values _ _ _ Hf Hx).
Defined.

(** * Further properties of the notebook's code *)

(** ** [values] and [Pmf.from_seq] together *)

Lemma sum_counts_perm : forall c c',
  Permutation c c' -> sum_counts c = sum_counts c'.
Proof. induction 1; simpl; lia. Qed.

Lemma key_le_trans : forall a b c,
  key_le a b = true -> key_le b c = true -> key_le a c = true.
Proof.
  intros [x|] [y|] [z|]; simpl; try discriminate; auto.
  rewrite !Z.leb_le. lia.
Qed.

Lemma key_le_antisym : forall a b,
  key_le a b = true -> key_le b a = true -> a = b.
Proof.
  intros [x|] [y|]; simpl; try discriminate; auto.
  rewrite !Z.leb_le. intros. f_equal. lia.
Qed.

(** Two lists sorted by key, with distinct keys, that are permutations of
    each other are equal. *)
Lemma sorted_by_key_unique {V : Type} : forall l1 l2 : list (option Z * V),
  Permutation l1 l2 -> NoDup (map fst l1) ->
  Sorted (fun a b => key_le (fst a) (fst b) = true) l1 ->
  Sorted (fun a b => key_le (fst a) (fst b) = true) l2 ->
  l1 = l2.
Proof.
  assert (Htr : forall a b c : option Z * V,
            key_le (fst a) (fst b) = true -> key_le (fst b) (fst c) = true ->
            key_le (fst a) (fst c) = true) by eauto using key_le_trans.
  induction l1 as [|a r1 IH]; intros l2 Hp Hnd Hs1 Hs2.
  - apply Permutation_nil in Hp. symmetry. exact Hp.
  - destruct l2 as [|b r2]; [apply Permutation_sym, Permutation_nil_cons in Hp; contradiction|].
    apply Sorted_StronglySorted in Hs1; [|exact Htr].
    apply Sorted_StronglySorted in Hs2; [|exact Htr].
    inversion Hs1 as [|? ? Hs1' Hall1]; subst.
    inversion Hs2 as [|? ? Hs2' Hall2]; subst.
    inversion Hnd as [|? ? Hnin Hnd']; subst.
    assert (Hab : a = b).
    { destruct (Permutation_in a Hp (or_introl eq_refl)) as [Heq|Hin2]; [auto|].
      assert (Hb1 : In b (a :: r1))
        by (apply (Permutation_in b (Permutation_sym Hp)); left; reflexivity).
      destruct Hb1 as [Heq|Hin1]; [auto|].
      rewrite Forall_forall in Hall1, Hall2.
      pose proof (key_le_antisym _ _ (Hall1 b Hin1) (Hall2 a Hin2)) as Hk.
      exfalso. apply Hnin. rewrite Hk. apply in_map. exact Hin1. }
    subst b. f_equal. apply IH.
    + eapply Permutation_cons_inv. exact Hp.
    + exact Hnd'.
    + apply StronglySorted_Sorted. exact Hs1'.
    + apply StronglySorted_Sorted. exact Hs2'.
Qed.

Lemma insert_map {A B : Type} (le : A -> A -> bool) (le' : B -> B -> bool)
      (f : A -> B) (Hf : forall a b, le' (f a) (f b) = le a b) :
  forall x l, insert le' (f x) (map f l) = map f (insert le x l).
Proof.
  intros x l. induction l as [|y r IH]; simpl; [reflexivity|].
  rewrite Hf. destruct (le x y); simpl; congruence.
Qed.

Lemma isort_map {A B : Type} (le : A -> A -> bool) (le' : B -> B -> bool)
      (f : A -> B) (Hf : forall a b, le' (f a) (f b) = le a b) :
  forall l, isort le' (map f l) = map f (isort le l).
Proof.
  induction l as [|x r IH]; simpl; [reflexivity|].
  rewrite IH. apply insert_map. exact Hf.
Qed.

(** [values s] lists every distinct non-missing value of [s] exactly once,
    and nothing else, each with its number of occurrences in [s]. *)
Lemma values_counts : forall s,
  NoDup (map fst (values s)) /\
  (forall k n, In (k, n) (values s) <-> k <> None /\ In k s /\ n = count_of k s).
Proof.
  intro s. destruct (count_values_keys s) as [Hnd Hk]. split.
  - eapply Permutation_NoDup;
      [symmetry; exact (Permutation_map fst (values_perm s))|].
    apply filter_keys_nodup. exact Hnd.
  - intros k n. split.
    + intro Hin. eapply Permutation_in in Hin; [|exact (values_perm s)].
      apply filter_In in Hin as [Hin Hp]. simpl in Hp.
      split; [destruct k; [discriminate|discriminate Hp]|].
      split; [apply Hk; apply (in_map fst) in Hin; exact Hin|].
      exact (count_values_count s k n Hin).
    + intros [Hne [Hks ->]]. apply Hk in Hks.
      apply in_map_iff in Hks as [[k' m] [Hk' Hin]]. simpl in Hk'; subst k'.
      rewrite <- (count_values_count s k m Hin).
      eapply Permutation_in; [symmetry; exact (values_perm s)|].
      apply filter_In. split; [exact Hin|]. simpl.
      destruct k; [reflexivity|congruence].
Qed.

(** The counts of [values s] add up to the number of non-missing entries
    of [s]. *)
Lemma values_total : forall s, sum_counts (values s) = count_present s.
Proof.
  intro s. rewrite (sum_counts_perm _ _ (values_perm s)).
  unfold count_values. rewrite sum_counts_present. reflexivity.
Qed.

(** [Pmf.from_seq(s)] is [values(s)] with every count divided by the
    number of non-missing entries: same keys, same order. *)
Lemma Pmf_from_seq_is_normalised_values : forall s,
  Pmf_from_seq s =
  map (fun kc => (fst kc, (inject_Z (Z.of_nat (snd kc))
                           / inject_Z (Z.of_nat (count_present s)))%Q))
      (values s).
Proof.
  intro s. unfold Pmf_from_seq, values, value_counts, normalize_counts. simpl.
  set (F := filter (fun kc => is_present (fst kc)) (count_values s)).
  assert (HT : sum_counts F = count_present s)
    by (unfold F, count_values; rewrite sum_counts_present; reflexivity).
  rewrite HT. unfold sort_index.
  rewrite (isort_map (fun a b => key_le (fst a) (fst b))
                     (fun a b => key_le (fst a) (fst b))) by reflexivity.
  f_equal.
  destruct (count_values_keys s) as [Hnd _].
  apply sorted_by_key_unique.
  - rewrite !isort_perm. reflexivity.
  - eapply Permutation_NoDup.
    + apply Permutation_map. symmetry. apply isort_perm.
    + unfold F. apply filter_keys_nodup. exact Hnd.
  - apply isort_sorted. intros a b. apply key_le_total.
  - apply isort_sorted. intros a b. apply key_le_total.
Qed.

(** ** The groups of [groupby('year')] and the mean series *)

Lemma fold_group_assoc : forall (rows : list row) acc y,
  assoc Z.eqb y (fold_left (fun acc r => bump Z.eqb (fst r) [snd r]
                                           (fun vs => vs ++ [snd r]) acc) rows acc) =
  match assoc Z.eqb y acc, select_year rows y with
  | Some vs, sel => Some (vs ++ sel)
  | None, [] => None
  | None, sel => Some sel
  end.
Proof.
  induction rows as [|[y' v] rows IH]; simpl; intros acc y.
  - destruct (assoc Z.eqb y acc); [rewrite app_nil_r|]; reflexivity.
  - rewrite IH, (assoc_bump Z.eqb Z.eqb_spec). unfold select_year. simpl.
    destruct (Z.eqb_spec y' y) as [->|Hne]; simpl; [|reflexivity].
    destruct (assoc Z.eqb y acc); simpl; [rewrite <- app_assoc|]; reflexivity.
Qed.

(** Each group of [gss.groupby('year')['polviews']] is exactly the
    selection [polviews[gss['year'] == y]]: the responses of year [y], in
    row order. *)
Lemma group_by_year_group : forall rows y vs,
  In (y, vs) (group_by_year rows) -> vs = select_year rows y.
Proof.
  intros rows y vs Hin. unfold group_by_year in Hin. rewrite isort_in in Hin.
  destruct (fold_bump_keys Z.eqb Z.eqb_spec (@fst Z (option Z))
              (fun r => [snd r]) (fun r vs => vs ++ [snd r]) rows []
              (NoDup_nil _)) as [Hnd _].
  pose proof (assoc_in Z.eqb Z.eqb_spec _ _ _ Hnd Hin) as Ha.
  rewrite fold_group_assoc in Ha. simpl in Ha.
  destruct (select_year rows y); congruence.
Qed.

(** The point of [mean_series] at year [y] is the mean of
    [polviews[gss['year'] == y]]. *)
Lemma mean_series_value : forall rows y m,
  In (y, m) (mean_series rows) -> m = group_mean (select_year rows y).
Proof.
  intros rows y m Hin. unfold mean_series in Hin.
  apply in_map_iff in Hin as [[y' vs] [Heq Hin]]. injection Heq as <- <-.
  simpl. rewrite (group_by_year_group rows y' vs Hin). reflexivity.
Qed.

Lemma present_values_nil : forall vs,
  present_values vs = [] <-> (forall v, In v vs -> v = None).
Proof.
  induction vs as [|[z|] r IH]; simpl.
  - split; [intros _ v []|reflexivity].
  - split; [discriminate|]. intro H. specialize (H (Some z) (or_introl eq_refl)).
    discriminate.
  - rewrite IH. split.
    + intros H v [<-|Hv]; auto.
    + intros H v Hv. auto.
Qed.

(** Every year of the input has a point in the mean series, also when
    all its responses are missing; its mean is NaN exactly in that case. *)
Lemma mean_series_nan_iff_all_missing : forall rows y,
  (exists v, In (y, v) rows) ->
  exists m, In (y, m) (mean_series rows) /\
    (m = None <-> forall v, In v (select_year rows y) -> v = None).
Proof.
  intros rows y Hy.
  apply group_by_year_keys, in_map_iff in Hy as [[y' vs] [Hy' Hin]].
  simpl in Hy'; subst y'.
  assert (Hm : In (y, group_mean vs) (mean_series rows)).
  { unfold mean_series. apply in_map_iff. exists (y, vs). auto. }
  exists (group_mean vs). split; [exact Hm|].
  rewrite (mean_series_value rows y _ Hm).
  rewrite <- present_values_nil. unfold group_mean.
  destruct (present_values (select_year rows y)); split; congruence.
Qed.

Lemma mean_series_nan_iff_all_missing_witness :
  (exists v, In (2000, v) [(1974, Some 4); (2000, None)]) /\
  exists m, In (2000, m) (mean_series [(1974, Some 4); (2000, None)]) /\
    (m = None <->
     forall v, In v (select_year [(1974, Some 4); (2000, None)] 2000) -> v = None).
Proof.
  assert (H : exists v, In (2000, v) [(1974, Some 4); (2000, None)]).
  { exists None. right. left. reflexivity. }
  split; [exact H|]. exact (mean_series_nan_iff_all_missing _ _ H).
Defined.

Lemma sum_bounds : forall lo hi (xs : list Z),
  (forall z, In z xs -> lo <= z <= hi) ->
  lo * Z.of_nat (length xs) <= fold_right Z.add 0 xs <= hi * Z.of_nat (length xs).
Proof.
  intros lo hi. induction xs as [|x r IH]; intro H; [simpl; lia|].
  change (length (x :: r)) with (S (length r)).
  change (fold_right Z.add 0 (x :: r)) with (x + fold_right Z.add 0 r).
  rewrite Nat2Z.inj_succ, !Z.mul_succ_r.
  assert (Hr0 : forall z, In z r -> lo <= z <= hi) by (intros; apply H; right; auto).
  assert (Hx : lo <= x <= hi) by (apply H; left; reflexivity).
  specialize (IH Hr0).
  lia.
Qed.

Lemma present_values_in : forall vs z, In z (present_values vs) <-> In (Some z) vs.
Proof.
  intros vs z. unfold present_values. rewrite in_flat_map. split.
  - intros [[z'|] [Hin Hz]]; simpl in Hz; [|contradiction].
    destruct Hz as [<-|[]]. exact Hin.
  - intro H. exists (Some z). simpl. auto.
Qed.

Lemma group_mean_bounds : forall vs lo hi q,
  (forall z, In (Some z) vs -> lo <= z <= hi) ->
  group_mean vs = Some q -> (inject_Z lo <= q <= inject_Z hi)%Q.
Proof.
  intros vs lo hi q Hb. unfold group_mean.
  assert (Hb' : forall z, In z (present_values vs) -> lo <= z <= hi)
    by (intros z Hz; apply Hb; apply present_values_in; exact Hz).
  destruct (present_values vs) as [|x r] eqn:Hp; [discriminate|].
  intro Hq. injection Hq as <-.
  pose proof (sum_bounds lo hi (x :: r) Hb') as [Hlo Hhi].
  set (n := length (x :: r)) in *.
  assert (Hn : (0 < inject_Z (Z.of_nat n))%Q).
  { change 0%Q with (inject_Z 0). rewrite <- Zlt_Qlt. unfold n. simpl. lia. }
  split.
  - apply Qle_shift_div_l; [exact Hn|].
    rewrite <- inject_Z_mult, <- Zle_Qle. exact Hlo.
  - apply Qle_shift_div_r; [exact Hn|].
    rewrite <- inject_Z_mult, <- Zle_Qle. exact Hhi.
Qed.

(** When every non-missing response lies in [lo, hi] (for polviews, the
    7-point scale [1, 7]), every defined mean of [mean_series] lies in
    [lo, hi]. *)
Lemma mean_series_bounds : forall rows lo hi y q,
  (forall y' z, In (y', Some z) rows -> lo <= z <= hi) ->
  In (y, Some q) (mean_series rows) ->
  (inject_Z lo <= q <= inject_Z hi)%Q.
Proof.
  intros rows lo hi y q Hb Hin.
  apply (group_mean_bounds (select_year rows y)).
  - intros z Hz. unfold select_year in Hz.
    apply in_map_iff in Hz as [[y' v] [Hv Hz]]. simpl in Hv; subst v.
    apply filter_In in Hz as [Hz _]. eauto.
  - symmetry. exact (mean_series_value rows y (Some q) Hin).
Qed.

Lemma mean_series_bounds_witness :
  (forall y' z, In (y', Some z) [(1974, Some 4); (1974, Some 6); (1990, Some 2)] ->
     1 <= z <= 7) /\
  In (1974, Some (10 # 2)%Q) (mean_series [(1974, Some 4); (1974, Some 6); (1990, Some 2)]) /\
  (inject_Z 1 <= (10 # 2) <= inject_Z 7)%Q.
Proof.
  assert (H1 : forall y' z, In (y', Some z) [(1974, Some 4); (1974, Some 6); (1990, Some 2)] ->
                 1 <= z <= 7).
  { intros y' z [H|[H|[H|[]]]]; injection H as _ <-; lia. }
  assert (H2 : In (1974, Some (10 # 2)%Q)
                 (mean_series [(1974, Some 4); (1974, Some 6); (1990, Some 2)]))
    by (vm_compute; left; reflexivity).
  split; [exact H1|split; [exact H2|]].
  exact (mean_series_bounds _ 1 7 1974 _ H1 H2).
Defined.

Lemma Sorted_map_fst {A B : Type} (R : A -> A -> Prop) : forall l : list (A * B),
  Sorted (fun a b => R (fst a) (fst b)) l -> Sorted R (map fst l).
Proof.
  induction 1 as [|a l Hs IH Hhd]; simpl; constructor; [exact IH|].
  destruct Hhd; simpl; constructor. assumption.
Qed.

Lemma Sorted_le_nodup_lt : forall l : list Z,
  Sorted Z.le l -> NoDup l -> Sorted Z.lt l.
Proof.
  induction 1 as [|a l Hs IH Hhd]; intro Hnd; constructor.
  - inversion Hnd; auto.
  - destruct Hhd as [|b l' Hab]; constructor.
    inversion Hnd as [|? ? Hnin _]; subst.
    assert (a <> b) by (intro; subst; apply Hnin; left; reflexivity). lia.
Qed.

Lemma group_by_year_sorted : forall rows,
  Sorted (fun a b => Z.leb (fst a) (fst b) = true) (group_by_year rows).
Proof.
  intro rows. apply isort_sorted. intros a b H.
  apply Z.leb_gt in H. apply Z.leb_le. lia.
Qed.

Lemma mean_series_years_lt : forall rows,
  Sorted Z.lt (map fst (mean_series rows)).
Proof.
  intro rows. apply Sorted_le_nodup_lt.
  - unfold mean_series. rewrite map_map. simpl.
    apply (Sorted_map_fst Z.le).
    pose proof (group_by_year_sorted rows) as Hs.
    induction Hs as [|a l Hs IH Hhd]; constructor; [exact IH|].
    destruct Hhd; constructor. apply Z.leb_le. assumption.
  - unfold mean_series. rewrite map_map. simpl.
    exact (proj1 (group_by_year_keys rows)).
Qed.

(** ** The cross-tabulation against the per-year selection *)

Lemma kept_count_select : forall rows y c,
  length (filter (fun q => pair_eqb q (y, c)) (kept_pairs rows)) =
  count_of (Some c) (select_year rows y).
Proof.
  intros rows y c. unfold count_of, select_year.
  induction rows as [|[y' [c'|]] rows IH]; [reflexivity| |]; simpl.
  - replace (pair_eqb (y', c') (y, c)) with (Z.eqb y' y && Z.eqb c' c) by reflexivity.
    destruct (Z.eqb y' y); simpl; destruct (Z.eqb c' c); simpl; rewrite ?IH;
      reflexivity.
  - destruct (Z.eqb y' y); simpl; exact IH.
Qed.

Lemma kept_total_select : forall rows y,
  length (filter (fun q => Z.eqb (fst q) y) (kept_pairs rows)) =
  count_present (select_year rows y).
Proof.
  intros rows y. unfold count_present, select_year.
  induction rows as [|[y' [c'|]] rows IH]; [reflexivity| |]; simpl.
  - destruct (Z.eqb y' y); simpl; rewrite IH; reflexivity.
  - destruct (Z.eqb y' y); simpl; exact IH.
Qed.

Lemma assoc_map_in_any {V : Type} : forall (f : Z -> V) cols c,
  In c cols -> assoc Z.eqb c (map (fun c' => (c', f c')) cols) = Some (f c).
Proof.
  intros f cols c. induction cols as [|c' r IH]; simpl; [contradiction|].
  intros [->|Hin].
  - rewrite Z.eqb_refl. reflexivity.
  - destruct (Z.eqb_spec c' c) as [->|Hne]; auto.
Qed.

Lemma crosstab_cell_select : forall rows y cells,
  In (y, cells) (crosstab rows) ->
  (forall c, In c (col_keys rows) ->
     assoc Z.eqb c cells = Some (count_of (Some c) (select_year rows y))) /\
  row_sum cells = count_present (select_year rows y).
Proof.
  intros rows y cells Hin.
  destruct (crosstab_row_total rows y cells Hin) as [Htot _].
  apply crosstab_row in Hin as [_ Hcells].
  split.
  - intros c Hc. rewrite Hcells, assoc_map_in_any by exact Hc.
    rewrite cell_counts_count. f_equal. apply kept_count_select.
  - rewrite Htot. apply kept_total_select.
Qed.

(** [xtab = pd.crosstab(year, column)]: in the row of year [y], the cell
    of each column [c] is the number of times [c] occurs in
    [polviews[gss['year'] == y]], and the row adds up to the number of
    non-missing responses of that year. *)
Lemma crosstab_counts_year_selection : forall rows y cells,
  In (y, cells) (crosstab rows) ->
  (forall c, In c (col_keys rows) ->
     assoc Z.eqb c cells = Some (count_of (Some c) (select_year rows y))) /\
  row_sum cells = count_present (select_year rows y).
Proof. exact crosstab_cell_select. Qed.

Lemma crosstab_counts_year_selection_witness :
  In (1974, [(1, 1%nat); (2, 0%nat); (4, 2%nat)])
     (crosstab [(1974, Some 4); (1974, Some 1); (1974, None); (1974, Some 4);
                (1990, Some 2)]) /\
  (forall c, In c (col_keys [(1974, Some 4); (1974, Some 1); (1974, None);
                             (1974, Some 4); (1990, Some 2)]) ->
     assoc Z.eqb c [(1, 1%nat); (2, 0%nat); (4, 2%nat)] =
     Some (count_of (Some c) (select_year [(1974, Some 4); (1974, Some 1); (1974, None);
                                           (1974, Some 4); (1990, Some 2)] 1974))) /\
  row_sum [(1, 1%nat); (2, 0%nat); (4, 2%nat)] =
  count_present (select_year [(1974, Some 4); (1974, Some 1); (1974, None);
                              (1974, Some 4); (1990, Some 2)] 1974).
Proof.
  assert (H : In (1974, [(1, 1%nat); (2, 0%nat); (4, 2%nat)])
     (crosstab [(1974, Some 4); (1974, Some 1); (1974, None); (1974, Some 4);
                (1990, Some 2)])) by (vm_compute; left; reflexivity).
  split; [exact H|]. exact (crosstab_counts_year_selection _ _ _ H).
Defined.

Lemma Pmf_from_seq_fraction : forall s k q,
  In (k, q) (Pmf_from_seq s) ->
  In k s /\ k <> None /\
  q == inject_Z (Z.of_nat (count_of k s)) / inject_Z (Z.of_nat (count_present s)).
Proof.
  intros s k q Hin. eapply Permutation_in in Hin; [|exact (Pmf_from_seq_perm s)].
  unfold normalize_counts in Hin. apply in_map_iff in Hin as [[k' v] [Heq Hin']].
  injection Heq as <- <-. simpl.
  apply filter_In in Hin' as [Hin' Hp].
  destruct (count_values_keys s) as [_ Hk].
  split; [apply Hk; apply (in_map fst) in Hin'; exact Hin'|].
  split; [destruct k'; simpl in *; discriminate|].
  rewrite <- (count_values_count s k' v Hin').
  unfold count_values. rewrite sum_counts_present. reflexivity.
Qed.

(** [xtab_norm = pd.crosstab(year, column, normalize='index')] agrees with
    [Pmf.from_seq(polviews[gss['year'] == y])]: each fraction of the PMF of
    year [y] is the cell of that value in the row of year [y]. *)
Lemma crosstab_norm_row_is_year_pmf : forall rows y qcells c q,
  In (y, qcells) (crosstab_norm rows) ->
  In (Some c, q) (Pmf_from_seq (select_year rows y)) ->
  exists q', assoc Z.eqb c qcells = Some q' /\ (q' == q)%Q.
Proof.
  intros rows y qcells c q Hrow Hp.
  apply Pmf_from_seq_fraction in Hp as [Hin [_ Hq]].
  apply crosstab_norm_row in Hrow as [cells [Hrow ->]].
  destruct (crosstab_cell_select rows y cells Hrow) as [Hcell Htot].
  assert (Hc : In c (col_keys rows)).
  { apply col_keys_in. exists y. unfold select_year in Hin.
    apply in_map_iff in Hin as [[y' v] [Hv Hin]]. simpl in Hv; subst v.
    apply filter_In in Hin as [Hin Hy]. apply Z.eqb_eq in Hy. simpl in Hy.
    subst y'. exact Hin. }
  pose proof (crosstab_row rows y cells Hrow) as [_ Hcells].
  specialize (Hcell c Hc).
  set (T := row_sum cells) in *. clearbody T.
  subst cells. rewrite map_map. simpl.
  rewrite (assoc_map_in_any (fun c' => (inject_Z (Z.of_nat (assoc_nat pair_eqb (y, c')
                                    (cell_counts rows))) / inject_Z (Z.of_nat T))%Q))
    by exact Hc.
  eexists. split; [reflexivity|].
  rewrite assoc_map_in_any in Hcell by exact Hc. injection Hcell as Hcell.
  rewrite Hcell, Htot. symmetry. exact Hq.
Qed.

Lemma crosstab_norm_row_is_year_pmf_witness :
  In (1974, [(1, (1 # 3)%Q); (2, (0 # 3)%Q); (4, (2 # 3)%Q)])
     (crosstab_norm [(1974, Some 4); (1974, Some 1); (1974, Some 4); (1990, Some 2)]) /\
  In (Some 4, (2 # 3)%Q)
     (Pmf_from_seq (select_year [(1974, Some 4); (1974, Some 1); (1974, Some 4);
                                 (1990, Some 2)] 1974)) /\
  exists q', assoc Z.eqb 4 [(1, (1 # 3)%Q); (2, (0 # 3)%Q); (4, (2 # 3)%Q)] = Some q' /\
             (q' == 2 # 3)%Q.
Proof.
  assert (H1 : In (1974, [(1, (1 # 3)%Q); (2, (0 # 3)%Q); (4, (2 # 3)%Q)])
     (crosstab_norm [(1974, Some 4); (1974, Some 1); (1974, Some 4); (1990, Some 2)]))
    by (vm_compute; left; reflexivity).
  assert (H2 : In (Some 4, (2 # 3)%Q)
     (Pmf_from_seq (select_year [(1974, Some 4); (1974, Some 1); (1974, Some 4);
                                 (1990, Some 2)] 1974)))
    by (vm_compute; right; left; reflexivity).
  split; [exact H1|split; [exact H2|]].
  exact (crosstab_norm_row_is_year_pmf _ _ _ _ _ H1 H2).
Defined.

Lemma row_keys_sorted_nodup : forall rows,
  Sorted Z.lt (row_keys rows).
Proof.
  intro rows. apply Sorted_le_nodup_lt.
  - assert (Hs : Sorted (fun a b => Z.leb a b = true) (row_keys rows)).
    { apply isort_sorted. intros a b H. apply Z.leb_gt in H. apply Z.leb_le. lia. }
    induction Hs as [|a l Hs IH Hhd]; constructor; [exact IH|].
    destruct Hhd; constructor. apply Z.leb_le. assumption.
  - unfold row_keys.
    eapply Permutation_NoDup; [symmetry; apply isort_perm|apply dedup_nodup].
Qed.

Lemma crosstab_norm_years : forall rows, map fst (crosstab_norm rows) = row_keys rows.
Proof.
  intro rows. unfold crosstab_norm, crosstab. rewrite !map_map. simpl. apply map_id.
Qed.

(** The rows of the cross-tabulation are the years with at least one
    non-missing response, strictly increasing.  A year whose responses are
    all missing has no row (where [mean_series] gives it a NaN point). *)
Lemma crosstab_norm_rows_are_answered_years : forall rows,
  Sorted Z.lt (map fst (crosstab_norm rows)) /\
  (forall y, In y (map fst (crosstab_norm rows)) <-> exists c, In (y, Some c) rows).
Proof.
  intro rows. rewrite crosstab_norm_years.
  split; [apply row_keys_sorted_nodup|apply row_keys_in].
Qed.

(** ** Smoothing already-sorted series, and the plotting loop *)

Lemma insert_head {A : Type} (le : A -> A -> bool) : forall x l,
  HdRel (fun a b => le a b = true) x l -> insert le x l = x :: l.
Proof.
  intros x l H. destruct H as [|y r Hxy]; simpl; [reflexivity|].
  rewrite Hxy. reflexivity.
Qed.

Lemma isort_sorted_id {A : Type} (le : A -> A -> bool) : forall l,
  Sorted (fun a b => le a b = true) l -> isort le l = l.
Proof.
  induction 1 as [|x l Hs IH Hhd]; simpl; [reflexivity|].
  rewrite IH. apply insert_head. exact Hhd.
Qed.

Lemma make_lowess_index_of_sorted :
  forall (fit : list Q -> list Q -> list Q) (series : list (float64 * float64)),
  (forall ys xs, length (fit ys xs) = length xs) ->
  StronglySorted (fun a b => Qle_bool (fst a) (fst b) = true)
    (flat_map finite_pair_of series) ->
  map fst (make_lowess fit series) = map fst (flat_map finite_pair_of series).
Proof.
  intros fit series Hfit Hs. rewrite make_lowess_xs by exact Hfit.
  rewrite isort_sorted_id; [reflexivity|]. apply StronglySorted_Sorted. exact Hs.
Qed.

(** [make_lowess] on a series whose finite points are already sorted by x
    (as in every Series the notebook smooths): the smooth line has one
    point at each x of a point whose x and y are finite, in the input's
    order, when the kernel returns one fitted value per point. *)
Lemma make_lowess_keeps_sorted_index :
  forall (fit : list Q -> list Q -> list Q) (series : list (float64 * float64)),
  (forall ys xs, length (fit ys xs) = length xs) ->
  StronglySorted (fun a b => Qle_bool (fst a) (fst b) = true)
    (finite_pairs (map fst series) (map snd series)) ->
  map fst (make_lowess fit series) =
  map fst (finite_pairs (map fst series) (map snd series)).
Proof.
  intros fit series Hfit. rewrite finite_pairs_series.
  exact (make_lowess_index_of_sorted fit series Hfit).
Qed.

Lemma make_lowess_keeps_sorted_index_witness :
  (forall ys xs : list Q,
     length ((fun (_ xs' : list Q) => map (fun _ => 0%Q) xs') ys xs) = length xs) /\
  StronglySorted (fun a b => Qle_bool (fst a) (fst b) = true)
    (finite_pairs
       (map fst [(Finite (inject_Z 1974), Finite (inject_Z 4));
                 (Finite (inject_Z 1990), NaN);
                 (Finite (inject_Z 1995), Inf false);
                 (Finite (inject_Z 2000), Finite (inject_Z 3))])
       (map snd [(Finite (inject_Z 1974), Finite (inject_Z 4));
                 (Finite (inject_Z 1990), NaN);
                 (Finite (inject_Z 1995), Inf false);
                 (Finite (inject_Z 2000), Finite (inject_Z 3))])) /\
  map fst (make_lowess (fun _ xs => map (fun _ => 0%Q) xs)
             [(Finite (inject_Z 1974), Finite (inject_Z 4));
              (Finite (inject_Z 1990), NaN);
              (Finite (inject_Z 1995), Inf false);
              (Finite (inject_Z 2000), Finite (inject_Z 3))]) =
  [inject_Z 1974; inject_Z 2000].
Proof.
  assert (Hf : forall ys xs : list Q,
             length ((fun (_ xs' : list Q) => map (fun _ => 0%Q) xs') ys xs) = length xs)
    by (intros; apply length_map).
  assert (Hs : StronglySorted (fun a b => Qle_bool (fst a) (fst b) = true)
    (finite_pairs
       (map fst [(Finite (inject_Z 1974), Finite (inject_Z 4));
                 (Finite (inject_Z 1990), NaN);
                 (Finite (inject_Z 1995), Inf false);
                 (Finite (inject_Z 2000), Finite (inject_Z 3))])
       (map snd [(Finite (inject_Z 1974), Finite (inject_Z 4));
                 (Finite (inject_Z 1990), NaN);
                 (Finite (inject_Z 1995), Inf false);
                 (Finite (inject_Z 2000), Finite (inject_Z 3))]))).
  { simpl. repeat constructor. }
  split; [exact Hf|split; [exact Hs|]].
  exact (make_lowess_keeps_sorted_index _ _ Hf Hs).
Defined.

Lemma existsb_Zeqb_in : forall (c : Z) l, existsb (Z.eqb c) l = true <-> In c l.
Proof.
  intros c l. rewrite existsb_exists. split.
  - intros [x [Hin Heq]]. apply Z.eqb_eq in Heq. subst. exact Hin.
  - intro Hin. exists c. split; [exact Hin|apply Z.eqb_refl].
Qed.

Lemma xtab_column_inr_iff : forall rows col,
  (exists series, xtab_column rows col = inr series) <->
  exists y, In (y, Some col) rows.
Proof.
  intros rows col. rewrite <- col_keys_in, <- existsb_Zeqb_in.
  unfold xtab_column. destruct (existsb (Z.eqb col) (col_keys rows)).
  - split; [reflexivity|eauto].
  - split; [intros [s H]; discriminate|discriminate].
Qed.

Lemma xtab_column_inl : forall rows col e,
  xtab_column rows col = inl e -> e = KeyError col.
Proof.
  intros rows col e. unfold xtab_column.
  destruct (existsb (Z.eqb col) (col_keys rows)); congruence.
Qed.

Lemma crosstab_in : forall rows y cells,
  In (y, cells) (crosstab rows) ->
  cells = map (fun c => (c, match assoc pair_eqb (y, c) (cell_counts rows) with
                            | Some n => n
                            | None => 0%nat
                            end)) (col_keys rows).
Proof.
  intros rows y cells Hin. unfold crosstab in Hin.
  apply in_map_iff in Hin as [y' [Heq _]]. injection Heq as <- <-. reflexivity.
Qed.

Lemma flat_map_finite_fst {A : Type} (g : A -> option Q) (h : A -> Z) :
  forall l, Forall (fun a => g a <> None) l ->
  map fst (flat_map finite_pair_of
             (map (fun a => (Finite (inject_Z (h a)), of_option (g a))) l)) =
  map (fun a => inject_Z (h a)) l.
Proof.
  induction 1 as [|a l Ha Hl IH]; simpl; [reflexivity|].
  destruct (g a) as [q|]; [simpl; congruence|contradiction].
Qed.

Lemma xtab_column_points : forall rows col series,
  xtab_column rows col = inr series ->
  map fst series = map (fun y => Finite (inject_Z y)) (row_keys rows) /\
  Forall (fun p => isfinite (snd p) = true) series /\
  map fst (flat_map finite_pair_of series) = map inject_Z (row_keys rows).
Proof.
  intros rows col series. unfold xtab_column.
  destruct (existsb (Z.eqb col) (col_keys rows)) eqn:E; [|discriminate].
  intro H. injection H as <-. apply existsb_Zeqb_in in E.
  assert (HA : Forall (fun yc => assoc Z.eqb col (snd yc) <> None) (crosstab_norm rows)).
  { apply Forall_forall. intros [y qcells] Hin. simpl.
    apply crosstab_norm_row in Hin as [cells [Hin ->]].
    rewrite (crosstab_in rows y cells Hin), map_map. simpl.
    rewrite (assoc_map_in_any _ _ _ E). discriminate. }
  split; [|split].
  - rewrite map_map, <- crosstab_norm_years, map_map. reflexivity.
  - apply Forall_map. eapply Forall_impl; [|exact HA]. intros yc Hyc. simpl.
    destruct (assoc Z.eqb col (snd yc)) eqn:Ea; [reflexivity|congruence].
  - rewrite (flat_map_finite_fst (fun yc => assoc Z.eqb col (snd yc)) fst _ HA).
    rewrite <- crosstab_norm_years, map_map. reflexivity.
Qed.

Lemma inject_sorted_points {B : Type} : forall (l : list (Q * B)) (zs : list Z),
  map fst l = map inject_Z zs -> Sorted Z.lt zs ->
  StronglySorted (fun a b => Qle_bool (fst a) (fst b) = true) l.
Proof.
  intros l zs Heq Hs. apply Sorted_StronglySorted in Hs; [|exact Z.lt_trans].
  revert zs Heq Hs. induction l as [|p l IH]; intros [|z zs] Heq Hs;
    simpl in Heq; try discriminate; [constructor|].
  injection Heq as Hp Heq. inversion Hs as [|? ? Hs' Hall]; subst.
  constructor; [exact (IH zs Heq Hs')|].
  apply Forall_forall. intros q Hq. apply Qle_bool_iff. rewrite Hp.
  assert (Hin : In (fst q) (map inject_Z zs)) by (rewrite <- Heq; apply in_map, Hq).
  apply in_map_iff in Hin as [z' [Hz' Hin]]. rewrite <- Hz', <- Zle_Qle.
  rewrite Forall_forall in Hall. specialize (Hall z' Hin). lia.
Qed.

Lemma xtab_column_smooth_years :
  forall (fit : list Q -> list Q -> list Q) rows col series,
  (forall ys xs, length (fit ys xs) = length xs) ->
  xtab_column rows col = inr series ->
  map fst (make_lowess fit series) = map inject_Z (row_keys rows).
Proof.
  intros fit rows col series Hfit Hx.
  destruct (xtab_column_points rows col series Hx) as [_ [_ Hfst]].
  rewrite make_lowess_index_of_sorted.
  - exact Hfst.
  - exact Hfit.
  - apply (inject_sorted_points _ (row_keys rows) Hfst).
    apply row_keys_sorted_nodup.
Qed.

Lemma StronglySorted_lt_filter {B : Type} (f : Z * B -> bool) : forall l,
  StronglySorted Z.lt (map fst l) -> StronglySorted Z.lt (map fst (filter f l)).
Proof.
  induction l as [|a l IH]; simpl; intro H; [constructor|].
  inversion H as [|? ? Hs Hall]; subst.
  destruct (f a); simpl; [constructor; [auto|]|auto].
  rewrite Forall_forall in *. intros x Hx. apply Hall.
  apply in_map_iff in Hx as [p [<- Hp]]. apply filter_In in Hp as [Hp _].
  apply in_map. exact Hp.
Qed.

Lemma sorted_lt_unique : forall l1 l2 : list Z,
  Sorted Z.lt l1 -> Sorted Z.lt l2 -> (forall x, In x l1 <-> In x l2) -> l1 = l2.
Proof.
  intros l1 l2 H1 H2.
  apply Sorted_StronglySorted in H1; [|exact Z.lt_trans].
  apply Sorted_StronglySorted in H2; [|exact Z.lt_trans].
  revert l2 H2. induction H1 as [|a l1 H1 IH Hall1]; intros l2 H2 Hiff.
  - destruct l2 as [|b l2]; [reflexivity|].
    exfalso. apply (proj2 (Hiff b)). left. reflexivity.
  - destruct H2 as [|b l2 H2 Hall2].
    + exfalso. apply (proj1 (Hiff a)). left. reflexivity.
    + rewrite Forall_forall in Hall1, Hall2.
      assert (Hab : a = b).
      { destruct (proj1 (Hiff a) (or_introl eq_refl)) as [->|Ha]; [reflexivity|].
        destruct (proj2 (Hiff b) (or_introl eq_refl)) as [->|Hb]; [reflexivity|].
        specialize (Hall1 b Hb). specialize (Hall2 a Ha). lia. }
      subst b. f_equal. apply IH; [exact H2|]. intro x. split.
      * intro Hx. specialize (Hall1 x Hx).
        destruct (proj1 (Hiff x) (or_intror Hx)) as [->|H]; [lia|exact H].
      * intro Hx. specialize (Hall2 x Hx).
        destruct (proj2 (Hiff x) (or_intror Hx)) as [->|H]; [lia|exact H].
Qed.

Lemma select_year_in : forall rows y v, In v (select_year rows y) <-> In (y, v) rows.
Proof.
  intros rows y v. unfold select_year. rewrite in_map_iff. split.
  - intros [[y' v'] [Hv Hin]]. simpl in Hv; subst v'.
    apply filter_In in Hin as [Hin Hy]. apply Z.eqb_eq in Hy. simpl in Hy.
    subst. exact Hin.
  - intro Hin. exists (y, v). split; [reflexivity|].
    apply filter_In. split; [exact Hin|apply Z.eqb_refl].
Qed.

Lemma mean_series_defined_years : forall rows y,
  In y (map fst (filter (fun p => match snd p with Some _ => true | None => false end)
                   (mean_series rows))) <->
  exists c, In (y, Some c) rows.
Proof.
  intros rows y. split.
  - intro H. apply in_map_iff in H as [[y' m] [Hy Hin]]. simpl in Hy; subst y'.
    apply filter_In in Hin as [Hin Hm]. simpl in Hm.
    rewrite (mean_series_value rows y m Hin) in Hm. unfold group_mean in Hm.
    destruct (present_values (select_year rows y)) as [|z zs] eqn:Hp;
      [discriminate|].
    assert (Hz : In z (present_values (select_year rows y))) by (rewrite Hp; left; auto).
    apply present_values_in, select_year_in in Hz. eauto.
  - intros [c Hc].
    assert (Hy : In y (map fst (group_by_year rows))).
    { apply group_by_year_keys. eauto. }
    apply in_map_iff in Hy as [[y' vs] [Hy Hin]]. simpl in Hy; subst y'.
    apply in_map_iff. exists (y, group_mean vs). split; [reflexivity|].
    apply filter_In. split.
    + unfold mean_series. apply in_map_iff. exists (y, vs). auto.
    + rewrite (group_by_year_group rows y vs Hin). simpl. unfold group_mean.
      destruct (present_values (select_year rows y)) eqn:Hp; [|reflexivity].
      apply present_values_nil with (v := Some c) in Hp; [discriminate|].
      apply select_year_in. exact Hc.
Qed.

Lemma mean_points_filter : forall ms : list (Z * option Q),
  map fst (flat_map finite_pair_of
             (map (fun p => (Finite (inject_Z (fst p)), of_option (snd p))) ms)) =
  map inject_Z (map fst (filter (fun p => match snd p with
                                           | Some _ => true
                                           | None => false
                                           end) ms)).
Proof. induction ms as [|[y [m|]] r IH]; simpl; congruence. Qed.

Lemma mean_plot_smooth_years_helper : forall (fit : list Q -> list Q -> list Q) rows,
  (forall ys xs, length (fit ys xs) = length xs) ->
  map fst (make_lowess fit (mean_series_points rows)) = map inject_Z (row_keys rows).
Proof.
  intros fit rows Hfit.
  assert (Hs : Sorted Z.lt (map fst (filter (fun p => match snd p with
                                                      | Some _ => true
                                                      | None => false
                                                      end) (mean_series rows)))).
  { apply StronglySorted_Sorted, StronglySorted_lt_filter.
    apply Sorted_StronglySorted; [exact Z.lt_trans|apply mean_series_years_lt]. }
  rewrite make_lowess_index_of_sorted; [|exact Hfit|].
  - unfold mean_series_points. rewrite mean_points_filter. f_equal.
    apply sorted_lt_unique; [exact Hs|apply row_keys_sorted_nodup|].
    intro y. rewrite mean_series_defined_years, row_keys_in. reflexivity.
  - eapply inject_sorted_points; [|exact Hs].
    unfold mean_series_points. apply mean_points_filter.
Qed.

(** [plot_columns_lowess(table, columns, colors)] runs to the end without
    a [KeyError] exactly when every requested column is a response that
    occurs in the data (so a column of the table) and has a colour. *)
Lemma plot_columns_lowess_ok_iff :
  forall {Color : Type} (fit : list Q -> list Q -> list Q) rows columns
         (colors : list (Z * Color)),
  snd (plot_columns_lowess fit rows columns colors) = None <->
  Forall (fun col => (exists y, In (y, Some col) rows) /\
                     exists color, assoc Z.eqb col colors = Some color) columns.
Proof.
  intros Color fit rows columns colors.
  induction columns as [|col rest IH]; simpl; [split; auto|].
  destruct (xtab_column rows col) as [e|series] eqn:Ex.
  - split; [discriminate|]. intro H. inversion H as [|? ? [Hy _] _]; subst.
    apply xtab_column_inr_iff in Hy as [s Hs]. congruence.
  - destruct (assoc Z.eqb col colors) as [color|] eqn:Ec.
    + destruct (plot_columns_lowess fit rows rest colors) as [ds err]. simpl in *.
      rewrite IH. split.
      * intro H. constructor; [|exact H]. split; [|eauto].
        apply xtab_column_inr_iff. eauto.
      * intro H. inversion H; assumption.
    + split; [discriminate|]. intro H. inversion H as [|? ? [_ [c Hc]] _]; subst.
      congruence.
Qed.

(** When the loop raises, the error is a [KeyError] on the first column
    that is not in the table or has no colour.  The drawings made are
    exactly those of the columns before it, one each and in order: column
    [table[c]] in colour [colors[c]].  Nothing after it is drawn. *)
Lemma plot_columns_lowess_error_prefix :
  forall {Color : Type} (fit : list Q -> list Q -> list Q) rows columns
         (colors : list (Z * Color)) e,
  snd (plot_columns_lowess fit rows columns colors) = Some e ->
  exists pre col post,
    columns = pre ++ col :: post /\ e = KeyError col /\
    Forall2 (fun c d => exists series color,
               xtab_column rows c = inr series /\
               assoc Z.eqb c colors = Some color /\
               d = plot_series_lowess fit series color)
      pre (fst (plot_columns_lowess fit rows columns colors)) /\
    Forall (fun c => (exists y, In (y, Some c) rows) /\
                     exists color, assoc Z.eqb c colors = Some color) pre /\
    ~ ((exists y, In (y, Some col) rows) /\
       exists color, assoc Z.eqb col colors = Some color).
Proof.
  intros Color fit rows columns colors e.
  induction columns as [|col rest IH]; simpl; [discriminate|].
  destruct (xtab_column rows col) as [e'|series] eqn:Ex.
  - intro H. injection H as <-. exists [], col, rest.
    split; [reflexivity|]. split; [exact (xtab_column_inl _ _ _ Ex)|].
    split; [constructor|]. split; [constructor|].
    intros [Hy _]. apply xtab_column_inr_iff in Hy as [s Hs]. congruence.
  - destruct (assoc Z.eqb col colors) as [color|] eqn:Ec.
    + destruct (plot_columns_lowess fit rows rest colors) as [ds err]. simpl in *.
      intro H. destruct (IH H) as [pre [c [post [Hr [He [Hl [Hok Hnot]]]]]]].
      exists (col :: pre), c, post.
      split; [simpl; congruence|]. split; [exact He|].
      split; [constructor; [eauto|exact Hl]|]. split; [|exact Hnot].
      constructor; [|exact Hok]. split; [|eauto].
      apply xtab_column_inr_iff. eauto.
    + intro H. injection H as <-. exists [], col, rest.
      split; [reflexivity|]. split; [reflexivity|].
      split; [constructor|]. split; [constructor|].
      intros [_ [c Hc]]. congruence.
Qed.

Lemma plot_columns_lowess_smooth_years_helper :
  forall {Color : Type} (fit : list Q -> list Q -> list Q) rows columns
         (colors : list (Z * Color)),
  (forall ys xs, length (fit ys xs) = length xs) ->
  Forall (fun d => map fst (drawn_smooth d) = map inject_Z (row_keys rows))
    (fst (plot_columns_lowess fit rows columns colors)).
Proof.
  intros Color fit rows columns colors Hfit.
  induction columns as [|col rest IH]; simpl; [constructor|].
  destruct (xtab_column rows col) as [e|series] eqn:Ex; [constructor|].
  destruct (assoc Z.eqb col colors) as [color|]; [|constructor].
  destruct (plot_columns_lowess fit rows rest colors) as [ds err]. simpl in *.
  constructor; [|exact IH].
  exact (xtab_column_smooth_years fit rows col series Hfit Ex).
Qed.

Lemma bump_group_size : forall (k : Z) (v : option Z) (acc : list (Z * list (option Z))),
  list_sum (map (fun g => length (snd g)) (bump Z.eqb k [v] (fun vs => vs ++ [v]) acc)) =
  S (list_sum (map (fun g => length (snd g)) acc)).
Proof.
  intros k v. induction acc as [|[k' vs] r IH]; simpl; [reflexivity|].
  destruct (Z.eqb k' k); simpl.
  - rewrite length_app. simpl. lia.
  - rewrite IH. lia.
Qed.

Lemma fold_group_size : forall (rows : list row) acc,
  list_sum (map (fun g => length (snd g))
                (fold_left (fun acc r => bump Z.eqb (fst r) [snd r]
                                           (fun vs => vs ++ [snd r]) acc) rows acc)) =
  (list_sum (map (fun g => length (snd g)) acc) + length rows)%nat.
Proof.
  induction rows as [|r rows IH]; simpl; intro acc; [lia|].
  rewrite IH, bump_group_size. lia.
Qed.

Lemma list_sum_perm : forall l l' : list nat, Permutation l l' -> list_sum l = list_sum l'.
Proof. induction 1; simpl; lia. Qed.

(** ** Statements of the properties above in terms of the notebook *)

(** Each group of [gss.groupby('year')['polviews']] is exactly the
    selection [polviews[gss['year'] == y]]: the responses of year [y] in
    row order, NaN included. *)
Lemma groupby_group_is_year_selection : forall rows y vs,
  In (y, vs) (group_by_year rows) -> vs = select_year rows y.
Proof. exact group_by_year_group. Qed.

(** The point of [gss_by_year['polviews'].mean()] at year [y] is the mean
    of [polviews[gss['year'] == y]], NaN skipped. *)
Lemma mean_series_is_year_mean : forall rows y m,
  In (y, m) (mean_series rows) -> m = group_mean (select_year rows y).
Proof. exact mean_series_value. Qed.

(** The years of [mean_series] are strictly increasing. *)
Lemma mean_series_years_increasing : forall rows,
  Sorted Z.lt (map fst (mean_series rows)).
Proof. exact mean_series_years_lt. Qed.

(** [plot_series_lowess(mean_series, ...)]: the smooth line of the mean
    series has its points exactly at the years of the cross-tabulation
    (the years with a non-missing response), in increasing order: the
    NaN means of the other years are dropped by [lowess]. *)
Lemma mean_plot_smooth_years : forall (fit : list Q -> list Q -> list Q) rows,
  (forall ys xs, length (fit ys xs) = length xs) ->
  map fst (make_lowess fit (mean_series_points rows)) = map inject_Z (row_keys rows).
Proof. exact mean_plot_smooth_years_helper. Qed.

(** [table[col]] on the normalised cross-tabulation raises [KeyError]
    exactly when no row has the response [col]; otherwise it returns the
    column. *)
Lemma xtab_column_keyerror_iff : forall rows col,
  xtab_column rows col = inl (KeyError col) <-> forall y, ~ In (y, Some col) rows.
Proof.
  intros rows col. split.
  - intros H y Hy.
    destruct (proj2 (xtab_column_inr_iff rows col) (ex_intro _ y Hy)) as [s Hs].
    congruence.
  - intro H. destruct (xtab_column rows col) as [e|s] eqn:Hx.
    + rewrite (xtab_column_inl _ _ _ Hx). reflexivity.
    + exfalso. destruct (proj1 (xtab_column_inr_iff rows col) (ex_intro _ s Hx))
        as [y Hy]. exact (H y Hy).
Qed.

(** A column [table[col]] of the normalised cross-tabulation has a finite
    value, never NaN ([fill_value=0]), at every year of the table, and its
    smooth line from [make_lowess] has a point at each of those years. *)
Lemma xtab_column_filled_and_smoothed :
  forall (fit : list Q -> list Q -> list Q) rows col series,
  (forall ys xs, length (fit ys xs) = length xs) ->
  xtab_column rows col = inr series ->
  Forall (fun p => isfinite (snd p) = true) series /\
  map fst series = map (fun y => Finite (inject_Z y)) (row_keys rows) /\
  map fst (make_lowess fit series) = map inject_Z (row_keys rows).
Proof.
  intros fit rows col series Hfit Hx.
  destruct (xtab_column_points rows col series Hx) as [Hfst [Hdef _]].
  split; [exact Hdef|split; [exact Hfst|]].
  exact (xtab_column_smooth_years fit rows col series Hfit Hx).
Qed.

(** Every smooth line that [plot_columns_lowess] draws, before it finishes
    or raises, has its points at the years of the table. *)
Lemma plot_columns_lowess_smooth_at_table_years :
  forall {Color : Type} (fit : list Q -> list Q -> list Q) rows columns
         (colors : list (Z * Color)),
  (forall ys xs, length (fit ys xs) = length xs) ->
  Forall (fun d => map fst (drawn_smooth d) = map inject_Z (row_keys rows))
    (fst (plot_columns_lowess fit rows columns colors)).
Proof. intros Color. exact plot_columns_lowess_smooth_years_helper. Qed.

(** [for year, group in gss_by_year: print(year, len(group))]: every
    group is non-empty, and the group sizes add up to the number of rows
    (rows whose response is NaN included). *)
Lemma groupby_group_sizes : forall rows : list row,
  Forall (fun g => snd g <> []) (group_by_year rows) /\
  list_sum (map (fun g => length (snd g)) (group_by_year rows)) = length rows.
Proof.
  intro rows. split.
  - apply Forall_forall. intros [y vs] Hin. simpl.
    assert (Hy : In y (map fst (group_by_year rows))) by (apply (in_map fst) in Hin; exact Hin).
    apply group_by_year_keys in Hy as [v Hv].
    rewrite (group_by_year_group rows y vs Hin). intro Hnil.
    apply (select_year_in rows y v) in Hv. rewrite Hnil in Hv. contradiction.
  - unfold group_by_year.
    rewrite (list_sum_perm _ _ (Permutation_map _ (isort_perm _ _))).
    rewrite fold_group_size. reflexivity.
Qed.

(** ** Witnesses *)

Lemma groupby_group_is_year_selection_witness :
  In (1974, [Some 4; None]) (group_by_year [(1974, Some 4); (1990, Some 2); (1974, None)]) /\
  [Some 4; None] = select_year [(1974, Some 4); (1990, Some 2); (1974, None)] 1974.
Proof.
  assert (H : In (1974, [Some 4; None])
                (group_by_year [(1974, Some 4); (1990, Some 2); (1974, None)])).
  { vm_compute. left. reflexivity. }
  split; [exact H|]. exact (groupby_group_is_year_selection _ _ _ H).
Defined.

Lemma mean_series_is_year_mean_witness :
  In (1974, Some (10 # 2)%Q)
    (mean_series [(1974, Some 4); (1990, Some 2); (1974, None); (1974, Some 6)]) /\
  Some (10 # 2)%Q =
    group_mean (select_year [(1974, Some 4); (1990, Some 2); (1974, None);
                             (1974, Some 6)] 1974).
Proof.
  assert (H : In (1974, Some (10 # 2)%Q)
    (mean_series [(1974, Some 4); (1990, Some 2); (1974, None); (1974, Some 6)])).
  { vm_compute. left. reflexivity. }
  split; [exact H|]. exact (mean_series_is_year_mean _ _ _ H).
Defined.

Lemma mean_plot_smooth_years_witness :
  (forall ys xs : list Q, length ((fun (_ xs' : list Q) => xs') ys xs) = length xs) /\
  map fst (make_lowess (fun _ xs => xs)
             (mean_series_points [(1974, Some 4); (1990, None); (2000, Some 3)])) =
  map inject_Z (row_keys [(1974, Some 4); (1990, None); (2000, Some 3)]).
Proof.
  assert (Hf : forall ys xs : list Q,
             length ((fun (_ xs' : list Q) => xs') ys xs) = length xs)
    by reflexivity.
  split; [exact Hf|]. exact (mean_plot_smooth_years _ _ Hf).
Defined.

Lemma xtab_column_filled_and_smoothed_witness :
  (forall ys xs : list Q, length ((fun (_ xs' : list Q) => xs') ys xs) = length xs) /\
  xtab_column [(1974, Some 4); (1974, Some 5); (1990, Some 4); (2000, None)] 4 =
    inr [(Finite (1974 # 1), Finite (1 # 2)); (Finite (1990 # 1), Finite (1 # 1))] /\
  Forall (fun p => isfinite (snd p) = true)
    [(Finite (1974 # 1), Finite (1 # 2)); (Finite (1990 # 1), Finite (1 # 1))] /\
  map fst [(Finite (1974 # 1), Finite (1 # 2)); (Finite (1990 # 1), Finite (1 # 1))] =
    map (fun y => Finite (inject_Z y)) (row_keys [(1974, Some 4); (1974, Some 5); (1990, Some 4); (2000, None)]) /\
  map fst (make_lowess (fun _ xs => xs)
             [(Finite (1974 # 1), Finite (1 # 2)); (Finite (1990 # 1), Finite (1 # 1))]) =
    map inject_Z (row_keys [(1974, Some 4); (1974, Some 5); (1990, Some 4); (2000, None)]).
Proof.
  assert (Hf : forall ys xs : list Q,
             length ((fun (_ xs' : list Q) => xs') ys xs) = length xs)
    by reflexivity.
  assert (Hx : xtab_column [(1974, Some 4); (1974, Some 5); (1990, Some 4); (2000, None)] 4 =
    inr [(Finite (1974 # 1), Finite (1 # 2)); (Finite (1990 # 1), Finite (1 # 1))])
    by (vm_compute; reflexivity).
  split; [exact Hf|split; [exact Hx|]].
  exact (xtab_column_filled_and_smoothed _ _ _ _ Hf Hx).
Defined.

Lemma plot_columns_lowess_error_prefix_witness :
  snd (plot_columns_lowess (fun _ xs => xs)
         [(1974, Some 1); (1974, Some 2); (1990, Some 1)] [1; 3; 2]
         [(1, 10%nat); (2, 20%nat); (3, 30%nat)]) = Some (KeyError 3) /\
  exists pre col post,
    [1; 3; 2] = pre ++ col :: post /\ KeyError 3 = KeyError col /\
    Forall2 (fun c d => exists series color,
               xtab_column [(1974, Some 1); (1974, Some 2); (1990, Some 1)] c
                 = inr series /\
               assoc Z.eqb c [(1, 10%nat); (2, 20%nat); (3, 30%nat)] = Some color /\
               d = plot_series_lowess (fun _ xs => xs) series color)
      pre (fst (plot_columns_lowess (fun _ xs => xs)
                  [(1974, Some 1); (1974, Some 2); (1990, Some 1)] [1; 3; 2]
                  [(1, 10%nat); (2, 20%nat); (3, 30%nat)])) /\
    Forall (fun c => (exists y, In (y, Some c) [(1974, Some 1); (1974, Some 2);
                                                 (1990, Some 1)]) /\
                     exists color, assoc Z.eqb c [(1, 10%nat); (2, 20%nat);
                                                   (3, 30%nat)] = Some color) pre /\
    ~ ((exists y, In (y, Some col) [(1974, Some 1); (1974, Some 2); (1990, Some 1)]) /\
       exists color, assoc Z.eqb col [(1, 10%nat); (2, 20%nat); (3, 30%nat)]
                     = Some color).
Proof.
  assert (H : snd (plot_columns_lowess (fun _ xs => xs)
         [(1974, Some 1); (1974, Some 2); (1990, Some 1)] [1; 3; 2]
         [(1, 10%nat); (2, 20%nat); (3, 30%nat)]) = Some (KeyError 3))
    by (vm_compute; reflexivity).
  split; [exact H|]. exact (plot_columns_lowess_error_prefix _ _ _ _ _ H).
Defined.

Lemma plot_columns_lowess_smooth_at_table_years_witness :
  (forall ys xs : list Q, length ((fun (_ xs' : list Q) => xs') ys xs) = length xs) /\
  Forall (fun d => map fst (drawn_smooth d)
                   = map inject_Z (row_keys [(1974, Some 1); (1974, Some 2);
                                             (1990, Some 1)]))
    (fst (plot_columns_lowess (fun _ xs => xs)
            [(1974, Some 1); (1974, Some 2); (1990, Some 1)] [1; 3; 2]
            [(1, 10%nat); (2, 20%nat); (3, 30%nat)])).
Proof.
  assert (Hf : forall ys xs : list Q,
             length ((fun (_ xs' : list Q) => xs') ys xs) = length xs)
    by reflexivity.
  split; [exact Hf|]. exact (plot_columns_lowess_smooth_at_table_years _ _ _ _ Hf).
Defined.
